(** * Job-market pipeline: incremental loader and cleaning stages

    A shallow embedding of [dags/job_collection_dag.py] (the function
    [load_raw_to_db]) and of [scrapers/data_cleaning.py] (the cleaning
    stages, [run_full_cleaning] and [clean_and_load]), with the
    properties the specification states about them.

    Conventions of the embedding:
    - a data frame is the list of its rows, in index order;
    - a missing cell (NaN, None, NULL) is [None];
    - text is ASCII: case folding and white space are those of Python's
      [str.lower], [str.upper], [str.strip] and of [\s] on ASCII input;
    - the float columns [salary_min] and [salary_max] are exact
      rationals ([Qc]), so rounding is not modelled;
    - [scraped_at] is a point in time ([Z]), NaT being [None]. *)

From Stdlib Require Import QArith Qcanon Ascii.
From stdpp Require Import base numbers strings list gmap sorting.

#[local] Set Warnings "-clear-no-such-hyp".

(** ** Text primitives *)

Module Text.

Definition code (c : ascii) : N := Ascii.N_of_ascii c.

(** [str.isspace] on ASCII: TAB, LF, VT, FF, CR, FS, GS, RS, US and
    the blank. *)
Definition is_space (c : ascii) : bool :=
  let n := code c in
  ((9 <=? n) && (n <=? 13) || (28 <=? n) && (n <=? 31) || (n =? 32))%N.

Definition lower_char (c : ascii) : ascii :=
  let n := code c in
  if ((65 <=? n) && (n <=? 90))%N then Ascii.ascii_of_N (n + 32) else c.

Definition upper_char (c : ascii) : ascii :=
  let n := code c in
  if ((97 <=? n) && (n <=? 122))%N then Ascii.ascii_of_N (n - 32) else c.

Fixpoint map_chars (f : ascii → ascii) (s : string) : string :=
  match s with
  | EmptyString => EmptyString
  | String c s' => String (f c) (map_chars f s')
  end.

Definition lower : string → string := map_chars lower_char.
Definition upper : string → string := map_chars upper_char.

Fixpoint all_space (s : string) : bool :=
  match s with
  | EmptyString => true
  | String c s' => is_space c && all_space s'
  end.

Fixpoint lstrip (s : string) : string :=
  match s with
  | EmptyString => EmptyString
  | String c s' => if is_space c then lstrip s' else s
  end.

Fixpoint rstrip (s : string) : string :=
  match s with
  | EmptyString => EmptyString
  | String c s' =>
      match rstrip s' with
      | EmptyString => if is_space c then EmptyString else String c EmptyString
      | t => String c t
      end
  end.

(** [str.strip()] *)
Definition strip (s : string) : string := rstrip (lstrip s).

Fixpoint starts_with (p s : string) : bool :=
  match p, s with
  | EmptyString, _ => true
  | String a p', String b s' => bool_decide (a = b) && starts_with p' s'
  | String _ _, EmptyString => false
  end.

(** [p in s] *)
Fixpoint contains (p s : string) : bool :=
  starts_with p s ||
  match s with
  | EmptyString => false
  | String _ s' => contains p s'
  end.

(** The match of [re.search('p1|p2|...', s, re.IGNORECASE)] for
    patterns of plain lower-case text. *)
Definition contains_any_ci (ps : list string) (s : string) : bool :=
  existsb (λ p, contains p (lower s)) ps.

(** [s.split(',', 1)]: the text before the first comma and, when there
    is a comma, the text after it. *)
Fixpoint split_comma (s : string) : string * option string :=
  match s with
  | EmptyString => (EmptyString, None)
  | String c s' =>
      if bool_decide (c = ","%char) then (EmptyString, Some s')
      else let '(h, t) := split_comma s' in (String c h, t)
  end.

Definition newline : string := String (Ascii.ascii_of_N 10) EmptyString.

(** The match of [re.search('(?i)^w$', s)] for a lower-case word [w]:
    [$] also matches just before a newline that ends the text. *)
Definition matches_word_ci (w s : string) : bool :=
  bool_decide (lower s = w) || bool_decide (lower s = w +:+ newline).

End Text.

(** ** Rows *)

(** One row of [raw_jobs] and of the frames derived from it.  The two
    columns [location_city] and [location_state] do not exist in
    [raw_jobs]; [clean_location] creates them. *)
Record posting := Posting {
  job_id : option string;
  source : option string;
  title : option string;
  company : option string;
  location : option string;
  salary_text : option string;
  salary_min : option Qc;
  salary_max : option Qc;
  job_type : option string;
  posted_date : option string;
  search_query : option string;
  search_location : option string;
  scraped_at : option Z;
  location_city : option string;
  location_state : option string
}.

#[global] Instance posting_eq_dec : EqDecision posting.
Proof. solve_decision. Defined.

Abbreviation frame := (list posting).

Definition with_salary (mn mx : option Qc) (r : posting) : posting :=
  Posting (job_id r) (source r) (title r) (company r) (location r)
    (salary_text r) mn mx (job_type r) (posted_date r) (search_query r)
    (search_location r) (scraped_at r) (location_city r) (location_state r).

Definition with_salary_max (mx : option Qc) (r : posting) : posting :=
  with_salary (salary_min r) mx r.

Definition with_location (city st : option string) (r : posting) : posting :=
  Posting (job_id r) (source r) (title r) (company r) (location r)
    (salary_text r) (salary_min r) (salary_max r) (job_type r) (posted_date r)
    (search_query r) (search_location r) (scraped_at r) city st.

Definition with_location_state (st : option string) (r : posting) : posting :=
  with_location (location_city r) st r.

Definition with_job_type (jt : option string) (r : posting) : posting :=
  Posting (job_id r) (source r) (title r) (company r) (location r)
    (salary_text r) (salary_min r) (salary_max r) jt (posted_date r)
    (search_query r) (search_location r) (scraped_at r) (location_city r)
    (location_state r).

(** ** Frame operations shared by the loader and the finalizer *)

(** The rows selected by [~df['job_id'].isin(s)]. *)
Definition not_isin (s : gset (option string)) (df : frame) : frame :=
  filter (λ r, job_id r ∉ s) df.

(** [df.drop_duplicates(subset=['job_id'], keep='first')], started with
    the identifiers [seen] counted as already met. *)
Fixpoint drop_duplicates_from (seen : gset (option string)) (df : frame) : frame :=
  match df with
  | [] => []
  | r :: df' =>
      if decide (job_id r ∈ seen) then drop_duplicates_from seen df'
      else r :: drop_duplicates_from ({[ job_id r ]} ∪ seen) df'
  end.

Definition drop_duplicates (df : frame) : frame := drop_duplicates_from ∅ df.

(** [set(df['job_id'].tolist())] *)
Definition ids (df : frame) : gset (option string) := list_to_set (job_id <$> df).

(** ** Incremental loader ([load_raw_to_db]) *)

Module Loader.

(** The content of one JSON file.  The producers write lists of
    postings, each with a [job_id] key (whose value may be null);
    [Unkeyed n] is a list of [n] objects none of which has the key, so
    that the frame built from it has no [job_id] column. *)
Inductive batch :=
| Postings (rows : frame)
| Unkeyed (n : nat).

(** The locals of [load_raw_to_db] and the table [raw_jobs].
    [attempts] counts the calls of [to_sql] made so far. *)
Record state := State {
  existing_set : gset (option string);
  total_loaded : nat;
  total_skipped : nat;
  raw_jobs : frame;
  attempts : nat
}.

(** What one iteration of the [for json_file in json_files] loop hands
    to [to_sql]: the rows left by the ledger filter and then by
    [drop_duplicates]. *)
Definition accepted (ledger : gset (option string)) (df : frame) : frame :=
  drop_duplicates (not_isin ledger df).

Section Run.

(** [to_sql_ok n] tells whether the [n]-th call of [to_sql] of the run
    returns; when it raises, the [except] branch runs instead. *)
Variable to_sql_ok : nat → bool.

Definition load_file (st : state) (b : batch) : state :=
  match b with
  | Unkeyed _ => st
  | Postings [] => st
  | Postings df =>
      let before_count := length df in
      let df1 := not_isin (existing_set st) df in
      let skipped := before_count - length df1 in
      let total_skipped' := total_skipped st + skipped in
      if bool_decide (length df1 = 0) then
        State (existing_set st) (total_loaded st) total_skipped'
          (raw_jobs st) (attempts st)
      else
        let df2 := drop_duplicates df1 in
        let new_ids := ids df2 in
        let existing_set' := existing_set st ∪ new_ids in
        if to_sql_ok (attempts st) then
          State existing_set' (total_loaded st + length df2) total_skipped'
            (raw_jobs st ++ df2) (S (attempts st))
        else
          State existing_set' (total_loaded st) total_skipped'
            (raw_jobs st) (S (attempts st))
  end.

(** The state before the loop: the ledger is read from the table. *)
Definition init (db : frame) : state := State (ids db) 0 0 db 0.

Definition load_raw_to_db (db : frame) (json_files : list batch) : state :=
  fold_left load_file json_files (init db).

End Run.

(** The reading of the specification: a row is accepted when its
    identifier is not in the ledger and no earlier row of the batch
    ([earlier], in order) carries it. *)
Fixpoint accepted_by_claim (ledger : gset (option string))
    (earlier df : frame) : frame :=
  match df with
  | [] => []
  | r :: df' =>
      (if decide ((job_id r ∉ ledger) ∧ (job_id r ∉ job_id <$> earlier))
       then [r] else [])
      ++ accepted_by_claim ledger (earlier ++ [r]) df'
  end.

(** A batch of two rows with one identifier. *)
Definition twice_a : frame :=
  let a := Posting (Some "a") None None None None None None None None None
             None None None None None in
  [a; a].

(** The rows of the files that have a [job_id] column, in file order. *)
Fixpoint rows_of (json_files : list batch) : frame :=
  match json_files with
  | [] => []
  | Postings df :: files => df ++ rows_of files
  | Unkeyed _ :: files => rows_of files
  end.

(** An oracle for a run whose first write fails. *)
Definition first_write_fails (n : nat) : bool := negb (n =? 0)%nat.

(** Three files: one that repeats an identifier, one without a [job_id]
    column, one that repeats an identifier of the first. *)
Definition three_batches : list batch :=
  let row i t := Posting (Some i) (Some "Adzuna") (Some t) None None None None
                   None None None None None None None None in
  [ Postings [row "a" "first"; row "b" "first"; row "a" "second"];
    Unkeyed 2;
    Postings [row "b" "second"; row "c" "first"] ].

End Loader.

(** ** Cleaning stages ([data_cleaning.py]) *)

Module Cleaning.

Import Text.

Definition state_table : list (string * string) :=
  [ ("Alabama", "AL"); ("Alaska", "AK"); ("Arizona", "AZ"); ("Arkansas", "AR");
    ("California", "CA"); ("Colorado", "CO"); ("Connecticut", "CT"); ("Delaware", "DE");
    ("Florida", "FL"); ("Georgia", "GA"); ("Hawaii", "HI"); ("Idaho", "ID");
    ("Illinois", "IL"); ("Indiana", "IN"); ("Iowa", "IA"); ("Kansas", "KS");
    ("Kentucky", "KY"); ("Louisiana", "LA"); ("Maine", "ME"); ("Maryland", "MD");
    ("Massachusetts", "MA"); ("Michigan", "MI"); ("Minnesota", "MN"); ("Mississippi", "MS");
    ("Missouri", "MO"); ("Montana", "MT"); ("Nebraska", "NE"); ("Nevada", "NV");
    ("New Hampshire", "NH"); ("New Jersey", "NJ"); ("New Mexico", "NM"); ("New York", "NY");
    ("North Carolina", "NC"); ("North Dakota", "ND"); ("Ohio", "OH"); ("Oklahoma", "OK");
    ("Oregon", "OR"); ("Pennsylvania", "PA"); ("Rhode Island", "RI"); ("South Carolina", "SC");
    ("South Dakota", "SD"); ("Tennessee", "TN"); ("Texas", "TX"); ("Utah", "UT");
    ("Vermont", "VT"); ("Virginia", "VA"); ("Washington", "WA"); ("West Virginia", "WV");
    ("Wisconsin", "WI"); ("Wyoming", "WY"); ("District of Columbia", "DC") ].

Definition STATE_NAME_TO_CODE : gmap string string := list_to_map state_table.

Definition STATE_CODES : gset string := list_to_set (state_table.*2).

(** *** Empty-value canonicalization *)

(** Whether one of the four patterns of [clean_empty_values] is found
    in a text cell: [^\s*$], [(?i)^null$], [(?i)^none$], [(?i)^nan$]. *)
Definition is_empty_value (s : string) : bool :=
  all_space s || matches_word_ci "null" s || matches_word_ci "none" s
  || matches_word_ci "nan" s.

Definition clean_empty_cell (v : option string) : option string :=
  match v with
  | Some s => if is_empty_value s then None else Some s
  | None => None
  end.

(** [df.replace] rewrites the text cells only; the float and the
    timestamp columns are left as they are. *)
Definition clean_empty_row (r : posting) : posting :=
  Posting (clean_empty_cell (job_id r)) (clean_empty_cell (source r))
    (clean_empty_cell (title r)) (clean_empty_cell (company r))
    (clean_empty_cell (location r)) (clean_empty_cell (salary_text r))
    (salary_min r) (salary_max r) (clean_empty_cell (job_type r))
    (clean_empty_cell (posted_date r)) (clean_empty_cell (search_query r))
    (clean_empty_cell (search_location r)) (scraped_at r)
    (clean_empty_cell (location_city r)) (clean_empty_cell (location_state r)).

Definition clean_empty_values (df : frame) : frame := clean_empty_row <$> df.

(** *** Location resolution *)

(** One row of [df['location'].str.split(',', n=1, expand=True)]. *)
Definition split_location (r : posting) : option string * option string :=
  match location r with
  | None => (None, None)
  | Some s => let '(h, t) := split_comma s in (Some h, t)
  end.

(** The value of [x.str.strip().str.upper()] when it is in
    [STATE_CODES]. *)
Definition as_state_code (x : option string) : option string :=
  match x with
  | Some s =>
      let k := upper (strip s) in
      if decide (k ∈ STATE_CODES) then Some k else None
  | None => None
  end.

Definition clean_location_row (r : posting) : posting :=
  let '(city, location2) := split_location r in
  let location2 := strip <$> location2 in
  let location_state := as_state_code location2 in
  let location_else :=
    match location_state with None => location2 | Some _ => None end in
  let location_state :=
    match location_state, location_else with
    | None, Some e =>
        if negb (contains "|" e || contains "," e)
           && bool_decide (e ∈ dom STATE_NAME_TO_CODE)
        then STATE_NAME_TO_CODE !! e else None
    | _, _ => location_state
    end in
  let location_state :=
    match location_state, search_location r with
    | None, Some _ => as_state_code (search_location r)
    | _, _ => location_state
    end in
  with_location city location_state r.

(** The split has as many columns as its longest row; assigning it to
    the two columns [location_city] and [location2] raises [ValueError]
    unless some row has a comma in its location. *)
Definition clean_location (df : frame) : option frame :=
  if existsb (λ r, bool_decide (is_Some (split_location r).2)) df
  then Some (clean_location_row <$> df)
  else None.

(** The reading of the specification: the ordered fallback on the pair
    [(location, search_location)]. *)
Definition resolve_state (loc search : option string) : option string :=
  let remainder := loc ≫= (λ s, (split_comma s).2) in
  match remainder with
  | Some rest =>
      if decide (upper (strip rest) ∈ STATE_CODES) then Some (upper (strip rest))
      else if negb (contains "," rest || contains "|" rest)
              && bool_decide (is_Some (STATE_NAME_TO_CODE !! strip rest))
      then STATE_NAME_TO_CODE !! strip rest
      else match search with
           | Some sl =>
               if decide (upper (strip sl) ∈ STATE_CODES)
               then Some (upper (strip sl)) else None
           | None => None
           end
  | None =>
      match search with
      | Some sl =>
          if decide (upper (strip sl) ∈ STATE_CODES)
          then Some (upper (strip sl)) else None
      | None => None
      end
  end.

(** *** Job-type canonicalization *)

Definition clean_mappings : list (string * list string) :=
  [ ("Full-time", ["full-time"; "full time"; "fulltime"; "ft"; "permanent"]);
    ("Part-time", ["part-time"; "part time"; "parttime"; "pt"]);
    ("Contract", ["contract"; "contractor"; "contractual"]);
    ("Temporary", ["temporary"; "temp"]);
    ("Internship", ["internship"; "intern"]) ].

Definition extract_type (value : option string) : option string :=
  match value with
  | None => None
  | Some v =>
      let value_lower := lower v in
      fst <$> List.find (λ m, existsb (λ pattern, contains pattern value_lower) m.2)
                clean_mappings
  end.

Definition extract_job_type_clean (df : frame) : frame :=
  (λ r, with_job_type (extract_type (job_type r)) r) <$> df.

(** *** Salary unit corrector *)

(** [df['salary_text'].str.contains(pat, case=False, na=False)] *)
Definition str_contains (ps : list string) (cell : option string) : bool :=
  match cell with
  | Some s => contains_any_ci ps s
  | None => false
  end.

(** [df['salary_min'].notna() & (df['salary_min'] < bound)] *)
Definition present_below (bound : Qc) (cell : option Qc) : bool :=
  match cell with
  | Some x => bool_decide (x < bound)%Qc
  | None => false
  end.

Definition times (k : Qc) (cell : option Qc) : option Qc := (λ x, x * k)%Qc <$> cell.

Definition rescale (k : Qc) (r : posting) : posting :=
  with_salary (times k (salary_min r)) (times k (salary_max r)) r.

Definition fix_k_notation (df : frame) : frame :=
  (λ r,
     let has_k := str_contains ["k"] (salary_text r) in
     let needs_fix := has_k && present_below (Qc_of_Z 1000) (salary_min r) in
     if needs_fix then rescale (Qc_of_Z 1000) r else r) <$> df.

Definition fix_hourly_wages (df : frame) : frame :=
  (λ r,
     let has_hourly := str_contains ["per hour"; "/hour"; "an hour"] (salary_text r) in
     let needs_fix := has_hourly && present_below (Qc_of_Z 200) (salary_min r) in
     if needs_fix then rescale (Qc_of_Z 2080) r else r) <$> df.

Definition fix_monthly_wages (df : frame) : frame :=
  (λ r,
     let has_monthly := str_contains ["per month"; "/month"; "a month"] (salary_text r) in
     let needs_fix := has_monthly && present_below (Qc_of_Z 20000) (salary_min r) in
     if needs_fix then rescale (Qc_of_Z 12) r else r) <$> df.

Definition fix_weekly_wages (df : frame) : frame :=
  (λ r,
     let has_weekly := str_contains ["per week"; "/week"; "a week"] (salary_text r) in
     let needs_fix := has_weekly && present_below (Qc_of_Z 5000) (salary_min r) in
     if needs_fix then rescale (Qc_of_Z 52) r else r) <$> df.

Definition drop_per_unit_wages (df : frame) : frame :=
  filter (λ r, str_contains ["per unit"] (salary_text r) = false) df.

(** Lines 216 to 220 of [run_full_cleaning]. *)
Definition correct_salary_units (df : frame) : frame :=
  drop_per_unit_wages
    (fix_weekly_wages (fix_monthly_wages (fix_hourly_wages (fix_k_notation df)))).

(** The reading of the specification: one rule of the table, and the
    chain of the five rules on one row ([None] when the row is
    dropped). *)
Definition rule (cues : list string) (bound factor : Z) (r : posting) : posting :=
  match salary_text r, salary_min r with
  | Some text, Some mn =>
      if existsb (λ cue, contains cue (lower text)) cues
         && bool_decide (mn < Qc_of_Z bound)%Qc
      then with_salary (Some (mn * Qc_of_Z factor)%Qc)
             ((λ mx, mx * Qc_of_Z factor)%Qc <$> salary_max r) r
      else r
  | _, _ => r
  end.

Definition correct_row (r : posting) : option posting :=
  let r := rule ["k"] 1000 1000 r in
  let r := rule ["per hour"; "/hour"; "an hour"] 200 2080 r in
  let r := rule ["per month"; "/month"; "a month"] 20000 12 r in
  let r := rule ["per week"; "/week"; "a week"] 5000 52 r in
  match salary_text r with
  | Some text => if contains "per unit" (lower text) then None else Some r
  | None => Some r
  end.

(** *** Salary imputer *)

(** [Series.median()]: the middle value of the sorted values, or the
    mean of the two middle values; nothing for no value at all. *)
Definition median (l : list Qc) : option Qc :=
  let s := merge_sort Qcle l in
  let n := length s in
  if Nat.even n then
    a ← s !! (n / 2 - 1); b ← s !! (n / 2); Some ((a + b) / Qc_of_Z 2)%Qc
  else s !! (n / 2).

(** The column [spread] of the rows with both bounds. *)
Definition spread_of (r : posting) : option Qc :=
  match salary_min r, salary_max r with
  | Some mn, Some mx => Some (mx - mn)%Qc
  | _, _ => None
  end.

(** The group of [spreads.groupby('source')['spread']] for one key. *)
Definition group_spreads (df : frame) (s : string) : list Qc :=
  omap spread_of (filter (λ r, source r = Some s) df).

(** [spreads.groupby('source')['spread'].median().to_dict()]; rows
    without a source belong to no group. *)
Definition median_spreads (df : frame) : gmap string Qc :=
  let spreads := filter (λ r, is_Some (spread_of r)) df in
  list_to_map
    (omap (λ s, (λ m, (s, m)) <$> median (group_spreads df s)) (omap source spreads)).

(** [Series.unique()]: the distinct values in order of appearance. *)
Fixpoint unique {A} `{EqDecision A} (l : list A) : list A :=
  match l with
  | [] => []
  | x :: l' => x :: filter (λ y, y ≠ x) (unique l')
  end.

(** [df['source'] == source] on one cell: a missing cell equals
    nothing, a missing [source] is equal to no cell. *)
Definition eq_source (cell src : option string) : bool :=
  match cell, src with
  | Some a, Some b => bool_decide (a = b)
  | _, _ => false
  end.

(** [df['salary_min'].notna() & df['salary_max'].isna()] *)
Definition only_min (r : posting) : bool :=
  bool_decide (is_Some (salary_min r)) && bool_decide (salary_max r = None).

Definition only_min_mask (df : frame) : list bool := only_min <$> df.

(** One iteration of [for source in df['source'].unique()]. *)
Definition impute_source (spreads : gmap string Qc) (only_min : list bool)
    (df : frame) (src : option string) : frame :=
  let mask := zip_with (λ (om : bool) r, om && eq_source (source r) src) only_min df in
  if existsb id mask then
    let spread := default (Qc_of_Z 10000) (src ≫= (spreads !!.)) in
    zip_with
      (λ (m : bool) r,
         if m then
           if decide (spread = Qc_of_Z 0)
           then with_salary_max (salary_min r) r
           else with_salary_max ((λ mn, mn + spread)%Qc <$> salary_min r) r
         else r)
      mask df
  else df.

Definition impute_missing_max_by_source (df : frame) : frame :=
  let spreads := median_spreads df in
  let only_min := only_min_mask df in
  fold_left (impute_source spreads only_min) (unique (source <$> df)) df.

(** *** Finalizer *)

(** [df.dropna(subset=['location_state'])] *)
Definition dropna_location_state (df : frame) : frame :=
  filter (λ r, is_Some (location_state r)) df.

Definition drop_muse (df : frame) : frame :=
  if decide (Some "Muse" ∈ source <$> df)
  then filter (λ r, source r ≠ Some "Muse") df
  else df.

(** None of the columns of [cols_to_drop] is a column of [posting]. *)
Definition run_full_cleaning (df : frame) : option frame :=
  let df := clean_empty_values df in
  df ← clean_location df;
  let df := extract_job_type_clean df in
  let df := fix_k_notation df in
  let df := fix_hourly_wages df in
  let df := fix_monthly_wages df in
  let df := fix_weekly_wages df in
  let df := drop_per_unit_wages df in
  let df := impute_missing_max_by_source df in
  let df := dropna_location_state df in
  let df := drop_muse df in
  Some df.

(** The order of [sort_values('scraped_at', ascending=False)]: later
    times first, missing times last. *)
Definition sooner_first (a b : posting) : Prop :=
  match scraped_at a, scraped_at b with
  | Some x, Some y => (y ≤ x)%Z
  | _, None => True
  | None, Some _ => False
  end.

#[global] Instance sooner_first_dec : RelDecision sooner_first.
Proof. intros a b. unfold sooner_first. destruct (scraped_at a), (scraped_at b); apply _. Defined.

Section Publish.

(** [df.sort_values('scraped_at', ascending=False)].  The sort of
    pandas is not stable, so the order it gives to rows of equal time is
    left open: any function that sorts will do. *)
Variable sort_values : frame → frame.

(** The frame written to [cleaned_jobs]. *)
Definition clean_and_load (raw_jobs : frame) : option frame :=
  df_clean ← run_full_cleaning raw_jobs;
  Some (drop_duplicates (sort_values df_clean)).

End Publish.

(** A sort to run [clean_and_load] with. *)
Definition sort_values_merge : frame → frame := merge_sort sooner_first.

(** *** Readings used by the properties *)

(** The texts that [clean_empty_values] turns into a missing cell,
    besides the blank ones. *)
Definition absent_literals : list string :=
  ["null"; "none"; "nan"; "null" +:+ newline; "none" +:+ newline; "nan" +:+ newline].

(** The reading of the specification: the trimmed text is empty or is
    one of the three words, whatever its case. *)
Definition absent_by_claim (s : string) : bool :=
  let t := strip s in
  bool_decide (t = "") || bool_decide (lower t ∈ ["null"; "none"; "nan"]).

(** What the loop of [impute_missing_max_by_source] does to one cell of
    the frame, and to one row over the whole loop. *)
Definition fill_max (spread : Qc) (r : posting) : posting :=
  if decide (spread = Qc_of_Z 0)
  then with_salary_max (salary_min r) r
  else with_salary_max ((λ mn, mn + spread)%Qc <$> salary_min r) r.

Definition impute_cell (spreads : gmap string Qc) (src : option string)
    (m : bool) (r : posting) : posting :=
  if m && eq_source (source r) src
  then fill_max (default (Qc_of_Z 10000) (src ≫= (spreads !!.))) r
  else r.

Definition impute_row (spreads : gmap string Qc) (r : posting) : posting :=
  match source r with
  | Some s =>
      if only_min r
      then fill_max (default (Qc_of_Z 10000) (spreads !! s)) r
      else r
  | None => r
  end.


(** *** Sample frames *)

Definition sample_locations : frame :=
  let at_ loc search :=
    Posting None None None None (Some loc) None None None None None None
      search None None None in
  [ at_ "Houston, TX" None; at_ "Remote" (Some "CA");
    at_ "Somewhere Else, Foo" (Some "Austin") ].

Definition untexted : posting :=
  Posting (Some "j1") (Some "Adzuna") None None None None
    (Some (Qc_of_Z 25)) (Some (Qc_of_Z 30)) None None None None None None None.

Definition priced (src : option string) (mn mx : option Z) : posting :=
  Posting None src None None None None (Qc_of_Z <$> mn) (Qc_of_Z <$> mx)
    None None None None None None None.

Definition sample_spreads : frame :=
  [ priced (Some "X") (Some 50000%Z) (Some 65000%Z);
    priced (Some "X") (Some 80000%Z) None ].

Definition sourceless : posting := priced None (Some 50000%Z) None.

(** A row of [raw_jobs] whose source is the empty text. *)
Definition raw_blank_source : posting :=
  Posting (Some "j7") (Some "") (Some "Analyst") (Some "Acme")
    (Some "Austin, TX") None (Some (Qc_of_Z 50000)) None None None None None
    (Some 0%Z) None None.

Definition pricing (df : frame) : list (option string * option Qc * option Qc) :=
  (λ r, (source r, salary_min r, salary_max r)) <$> df.

(** Two scrapes of one posting, a posting of the excluded source and a
    posting whose state cannot be resolved. *)
Definition scraped (jid src loc : string) (day : Z) : posting :=
  Posting (Some jid) (Some src) (Some "Analyst") (Some "Acme") (Some loc)
    None None None None None None None (Some day) None None.

Definition sample_raw : frame :=
  [ scraped "a" "Adzuna" "Austin, TX" 20250101;
    scraped "a" "Adzuna" "Austin, TX" 20250103;
    scraped "m" "Muse" "Boston, MA" 20250102;
    scraped "n" "Jooble" "Nowhere" 20250102 ].

Definition sample_published : frame :=
  [ with_location (Some "Austin") (Some "TX")
      (scraped "a" "Adzuna" "Austin, TX" 20250103) ].

(** The text cells of a row. *)
Definition text_cells (r : posting) : list (option string) :=
  [ job_id r; source r; title r; company r; location r; salary_text r;
    job_type r; posted_date r; search_query r; search_location r;
    location_city r; location_state r ].

(** The keys of [clean_mappings]. *)
Definition categories : list string := clean_mappings.*1.


(** No location of the frame has a comma. *)
Definition no_comma (df : frame) : Prop :=
  ∀ r s, r ∈ df → location r = Some s → contains "," s = false.

Definition comma : string := ",".

(** The row [r] with both salary bounds multiplied by [k]. *)
Definition scaled (k : Qc) (r : posting) : posting :=
  with_salary (times k (salary_min r)) (times k (salary_max r)) r.

(** Every [salary_min] of the frame, once multiplied by [factor], is at
    least [bound]. *)
Definition scaled_past (bound factor : Z) (df : frame) : Prop :=
  ∀ r mn, r ∈ df → salary_min r = Some mn →
          (Qc_of_Z bound ≤ mn * Qc_of_Z factor)%Qc.

(** The bounds of the row are in order when both are present. *)
Definition ordered (r : posting) : Prop :=
  ∀ mn mx, salary_min r = Some mn → salary_max r = Some mx → (mn ≤ mx)%Qc.

(** The field normalizer on one row: the three stages before the
    salary stages. *)
Definition normalized (r : posting) : posting :=
  let r := clean_location_row (clean_empty_row r) in
  with_job_type (extract_type (job_type r)) r.

(** [r'] is [base] but for its salary bounds. *)
Definition salary_variant (base r' : posting) : Prop :=
  r' = with_salary (salary_min r') (salary_max r') base.

(** The outcome of [verify_cleaned_data] ([job_collection_dag.py]): it
    returns, or raises one of its three errors.  The two counts and the
    column names are what its three queries read. *)
Inductive verification :=
| Verified
| EmptyCleanedTable
| MoreCleanedThanRaw
| MissingColumns (missing : list string).

Definition required_columns : list string :=
  ["job_id"; "title"; "company"; "location_state"; "salary_min"; "source"].

Definition verify_cleaned_data (raw_count clean_count : nat)
    (columns : list string) : verification :=
  if bool_decide (clean_count = 0) then EmptyCleanedTable
  else if bool_decide (raw_count < clean_count) then MoreCleanedThanRaw
  else
    let missing := filter (λ col, col ∉ columns) required_columns in
    match missing with
    | [] => Verified
    | _ => MissingColumns missing
    end.

(** The identifier and the time of each row. *)
Definition stamps (df : frame) : list (option string * option Z) :=
  (λ r, (job_id r, scraped_at r)) <$> df.

(** Every identifier of the frame is a text that canonicalization
    keeps. *)
Definition identified (df : frame) : Prop :=
  ∀ r, r ∈ df → ∃ s, job_id r = Some s ∧ is_empty_value s = false.

(** A row paid by the hour and a row in k notation. *)
Definition sample_hourly : posting :=
  Posting (Some "h1") (Some "Jooble") None None None (Some "$25 per hour")
    (Some (Qc_of_Z 25)) (Some (Qc_of_Z 30)) None None None None None None None.

Definition sample_k : posting :=
  Posting (Some "k1") (Some "Jooble") None None None (Some "$100k a year")
    (Some (Qc_of_Z 100)) None None None None None None None None.

(** Two scrapes of one posting at one time, by two sources. *)
Definition sample_ties : frame :=
  [ scraped "a" "Adzuna" "Austin, TX" 20250103;
    scraped "a" "Jooble" "Austin, TX" 20250103;
    scraped "b" "Jooble" "Dallas, TX" 20250101 ].

Definition sort_values_backwards : frame → frame :=
  λ df, merge_sort sooner_first (reverse df).

Definition sample_distinct : frame :=
  [ scraped "a" "Adzuna" "Austin, TX" 20250101;
    scraped "b" "Jooble" "Dallas, Texas" 20250103;
    scraped "c" "Jooble" "Nowhere" 20250102 ].

End Cleaning.

(** * Properties *)

(** ** Dropping duplicates *)

Section DropDuplicates.

Implicit Types (seen ledger : gset (option string)) (df : frame).

Lemma ids_cons r df : ids (r :: df) = {[ job_id r ]} ∪ ids df.
Proof. reflexivity. Qed.

Lemma ids_app df1 df2 : ids (df1 ++ df2) = ids df1 ∪ ids df2.
Proof. unfold ids. rewrite fmap_app. apply list_to_set_app_L. Qed.

Lemma elem_of_ids i df : i ∈ ids df ↔ ∃ r, r ∈ df ∧ job_id r = i.
Proof.
  unfold ids. rewrite elem_of_list_to_set, list_elem_of_fmap. naive_solver.
Qed.

Lemma drop_duplicates_from_sublist seen df :
  drop_duplicates_from seen df `sublist_of` df.
Proof.
  revert seen. induction df as [|r df IH]; intros seen; simpl.
  - constructor.
  - destruct (decide (job_id r ∈ seen)).
    + apply sublist_cons, IH.
    + apply sublist_skip, IH.
Qed.

Lemma ids_drop_duplicates_from seen df :
  ids (drop_duplicates_from seen df) ∪ seen = ids df ∪ seen.
Proof.
  revert seen. induction df as [|r df IH]; intros seen; simpl; [done|].
  destruct (decide (job_id r ∈ seen)).
  - rewrite IH, ids_cons. apply set_eq. intros i. set_unfold.
    intuition congruence.
  - rewrite !ids_cons. specialize (IH ({[job_id r]} ∪ seen)).
    apply set_eq. intros i.
    assert (i ∈ ids (drop_duplicates_from ({[job_id r]} ∪ seen) df)
                ∪ ({[job_id r]} ∪ seen)
            ↔ i ∈ ids df ∪ ({[job_id r]} ∪ seen)) as Hi by (by rewrite IH).
    rewrite !elem_of_union, !elem_of_singleton in Hi |- *. tauto.
Qed.

Lemma ids_drop_duplicates df : ids (drop_duplicates df) = ids df.
Proof.
  pose proof (ids_drop_duplicates_from ∅ df) as H.
  rewrite !(right_id_L ∅ (∪)) in H. exact H.
Qed.

Lemma drop_duplicates_from_fresh seen df r :
  r ∈ drop_duplicates_from seen df → job_id r ∉ seen.
Proof.
  revert seen. induction df as [|x df IH]; intros seen; simpl.
  - intros H. inversion H.
  - destruct (decide (job_id x ∈ seen)); [apply IH|].
    intros [->|H]%elem_of_cons; [done|].
    apply IH in H. set_solver.
Qed.

Lemma NoDup_drop_duplicates_from seen df :
  NoDup (job_id <$> drop_duplicates_from seen df).
Proof.
  revert seen. induction df as [|x df IH]; intros seen; simpl.
  - constructor.
  - destruct (decide (job_id x ∈ seen)); [apply IH|].
    rewrite fmap_cons. constructor; [|apply IH].
    intros (r & Hr & Hin)%list_elem_of_fmap.
    apply drop_duplicates_from_fresh in Hin. set_solver.
Qed.

(** A row kept by [drop_duplicates_from] is a first occurrence: the rows
    before it carry other identifiers. *)
Lemma drop_duplicates_from_first seen df r :
  r ∈ drop_duplicates_from seen df →
  ∃ df1 df2, df = df1 ++ r :: df2 ∧ job_id r ∉ (job_id <$> df1).
Proof.
  revert seen. induction df as [|x df IH]; intros seen; simpl.
  - intros H. inversion H.
  - destruct (decide (job_id x ∈ seen)) as [Hx|Hx].
    + intros H. pose proof (drop_duplicates_from_fresh _ _ _ H) as Hr.
      destruct (IH _ H) as (df1 & df2 & -> & Hn).
      exists (x :: df1), df2. split; [done|].
      rewrite fmap_cons, not_elem_of_cons. split; [congruence|done].
    + intros [->|H]%elem_of_cons.
      * exists [], df. split; [done|]. rewrite fmap_nil. apply not_elem_of_nil.
      * pose proof (drop_duplicates_from_fresh _ _ _ H) as Hr.
        destruct (IH _ H) as (df1 & df2 & -> & Hn).
        exists (x :: df1), df2. split; [done|].
        rewrite fmap_cons, not_elem_of_cons. split; [set_solver|done].
Qed.

(** Every identifier of the frame that is not in [seen] is kept. *)
Lemma drop_duplicates_from_covers seen df r :
  r ∈ df → job_id r ∉ seen →
  ∃ r', r' ∈ drop_duplicates_from seen df ∧ job_id r' = job_id r.
Proof.
  revert seen. induction df as [|x df IH]; intros seen; simpl.
  - intros H. inversion H.
  - intros [->|H]%elem_of_cons Hn.
    + rewrite decide_False by done. exists x. split; [left|done].
    + destruct (decide (job_id x ∈ seen)); [by apply IH|].
      destruct (decide (job_id r = job_id x)) as [E|E].
      * exists x. split; [left|done].
      * destruct (IH ({[job_id x]} ∪ seen) H) as (r' & ? & ?); [set_solver|].
        exists r'. split; [by right|done].
Qed.

End DropDuplicates.

(** ** The incremental loader *)

Module LoaderProps.

Import Loader.

Implicit Types (seen ledger : gset (option string)) (df : frame).

Lemma accepted_from_claim ledger seen earlier df :
  (∀ i, i ∉ ledger → (i ∈ seen ↔ i ∈ job_id <$> earlier)) →
  drop_duplicates_from seen (not_isin ledger df)
  = accepted_by_claim ledger earlier df.
Proof.
  revert seen earlier.
  induction df as [|r df IH]; intros seen earlier Hinv; [reflexivity|].
  unfold not_isin in *. rewrite filter_cons. cbn [accepted_by_claim].
  destruct (decide (job_id r ∉ ledger)) as [Hl|Hl].
  - simpl. destruct (decide (job_id r ∈ seen)) as [Hs|Hs].
    + rewrite decide_False by (rewrite <- Hinv by done; tauto).
      simpl. apply IH. intros i Hi. rewrite fmap_app, elem_of_app, <- Hinv by done.
      simpl. rewrite list_elem_of_singleton. split; [tauto|]. intros [?| ->]; done.
    + rewrite decide_True by (rewrite <- Hinv by done; tauto).
      simpl. f_equal. apply IH. intros i Hi.
      rewrite fmap_app, elem_of_app, <- Hinv by done.
      simpl. rewrite list_elem_of_singleton. set_solver.
  - rewrite decide_False by tauto. simpl. apply IH. intros i Hi.
    rewrite fmap_app, elem_of_app, <- Hinv by done.
    simpl. rewrite list_elem_of_singleton. split; [tauto|].
    intros [?| ->]; [done|]. contradiction.
Qed.

Lemma accepted_eq_claim ledger df :
  accepted ledger df = accepted_by_claim ledger [] df.
Proof.
  unfold accepted, drop_duplicates. apply accepted_from_claim.
  intros i _. rewrite fmap_nil. set_solver.
Qed.

Lemma load_raw_to_db_snoc ok db files b :
  load_raw_to_db ok db (files ++ [b]) = load_file ok (load_raw_to_db ok db files) b.
Proof. unfold load_raw_to_db. by rewrite fold_left_app. Qed.

(** The effect of one iteration on a frame with at least one row. *)
Lemma load_file_postings ok st df :
  df ≠ [] →
  let acc := accepted (existing_set st) df in
  let st' := load_file ok st (Postings df) in
  existing_set st' = existing_set st ∪ ids acc ∧
  raw_jobs st' = raw_jobs st ++ (if ok (attempts st) then acc else []) ∧
  total_loaded st' = total_loaded st + (if ok (attempts st) then length acc else 0) ∧
  total_skipped st' = total_skipped st + (length df - length (not_isin (existing_set st) df)).
Proof.
  intros Hne. destruct df as [|r df]; [done|]. clear Hne.
  cbv zeta. unfold load_file, accepted.
  set (df1 := not_isin (existing_set st) (r :: df)).
  case_bool_decide as Hlen.
  - apply length_zero_iff_nil in Hlen. rewrite Hlen.
    change (ids (drop_duplicates [])) with (∅ : gset (option string)).
    change (drop_duplicates []) with (@nil posting). simpl.
    rewrite (right_id_L ∅ (∪)). destruct (ok _); rewrite ?app_nil_r; auto with lia.
  - destruct (ok (attempts st)); simpl; auto with lia.
    rewrite app_nil_r. auto with lia.
Qed.

(** C1.  Whatever happened before it in the run, a batch that is empty
    or has no [job_id] column leaves the whole state as it was; of any
    other batch the loader accepts exactly the rows whose identifier is
    not in the ledger of that moment and has not occurred earlier in the
    batch, it adds their identifiers to the ledger, and it appends them
    to [raw_jobs] when the write succeeds.  The ledger of the first
    batch is the set of identifiers of the table. *)
Theorem loader_accepts_new_first_occurrences
    (to_sql_ok : nat → bool) (db : frame) (earlier_files : list batch) (b : batch) :
  let st := load_raw_to_db to_sql_ok db earlier_files in
  let st' := load_raw_to_db to_sql_ok db (earlier_files ++ [b]) in
  existing_set (load_raw_to_db to_sql_ok db []) = ids db ∧
  match b with
  | Unkeyed _ | Postings [] => st' = st
  | Postings df =>
      let acc := accepted_by_claim (existing_set st) [] df in
      accepted (existing_set st) df = acc ∧
      existing_set st' = existing_set st ∪ ids acc ∧
      raw_jobs st' = raw_jobs st ++ (if to_sql_ok (attempts st) then acc else [])
  end.
Proof.
  cbv zeta. split; [done|]. rewrite load_raw_to_db_snoc.
  destruct b as [[|r df]|n]; [done| |done].
  rewrite <- accepted_eq_claim. split; [done|].
  destruct (load_file_postings to_sql_ok (load_raw_to_db to_sql_ok db earlier_files)
              (r :: df)) as (H1 & H2 & _); [done|]. auto.
Qed.

Lemma not_isin_nil ledger df : ids df ⊆ ledger → not_isin ledger df = [].
Proof.
  intros Hsub. unfold not_isin. induction df as [|r df IH]; [done|].
  rewrite ids_cons in Hsub. rewrite filter_cons.
  rewrite decide_False.
  - apply IH. intros i Hi. apply Hsub, elem_of_union. by right.
  - intros Hn. apply Hn, Hsub, elem_of_union. left. by apply elem_of_singleton.
Qed.

Lemma ids_not_isin ledger df : ids df ⊆ ledger ∪ ids (not_isin ledger df).
Proof.
  intros i (r & Hr & <-)%elem_of_ids. apply elem_of_union.
  destruct (decide (job_id r ∈ ledger)); [by left|right].
  apply elem_of_ids. exists r. split; [|done].
  unfold not_isin. by apply list_elem_of_filter.
Qed.

Lemma length_hits ledger df :
  length (filter (λ r, job_id r ∈ ledger) df) + length (not_isin ledger df)
  = length df.
Proof.
  unfold not_isin. rewrite <- length_app.
  apply Permutation_length, filter_app_complement.
Qed.

Lemma loaded_eq_appended ok db files :
  let st := load_raw_to_db ok db files in
  length (raw_jobs st) = length db + total_loaded st.
Proof.
  cbv zeta. induction files as [|b files IH] using rev_ind; [simpl; lia|].
  rewrite load_raw_to_db_snoc.
  destruct b as [[|r df]|n]; [done| |done].
  destruct (load_file_postings ok (load_raw_to_db ok db files) (r :: df))
    as (_ & H2 & H3 & _); [done|].
  rewrite H2, H3, length_app. destruct (ok _); simpl; lia.
Qed.

(** C7.  When the write of the first run succeeds, a second run on the
    same batch, started from the table the first run left, loads
    nothing and leaves the table as it is. *)
Theorem loader_second_run_loads_nothing
    (ok1 ok2 : nat → bool) (db : frame) (b : batch) :
  ok1 0 = true →
  let st1 := load_raw_to_db ok1 db [b] in
  let st2 := load_raw_to_db ok2 (raw_jobs st1) [b] in
  total_loaded st2 = 0 ∧ raw_jobs st2 = raw_jobs st1.
Proof.
  intros Hok. cbv zeta.
  destruct b as [[|r df]|n]; [done| |done].
  change (load_raw_to_db ok1 db [Postings (r :: df)])
    with (load_file ok1 (init db) (Postings (r :: df))).
  destruct (load_file_postings ok1 (init db) (r :: df)) as (_ & H2 & _); [done|].
  change (attempts (init db)) with 0 in H2. rewrite Hok in H2.
  change (raw_jobs (init db)) with db in H2.
  change (existing_set (init db)) with (ids db) in H2.
  rewrite H2. clear H2.
  set (db1 := db ++ accepted (ids db) (r :: df)).
  assert (not_isin (ids db1) (r :: df) = []) as Hnil.
  { apply not_isin_nil. unfold db1, accepted.
    rewrite ids_app, ids_drop_duplicates. apply ids_not_isin. }
  unfold load_raw_to_db. simpl fold_left. unfold load_file.
  change (existing_set (init db1)) with (ids db1). rewrite Hnil. done.
Qed.

Lemma loader_second_run_loads_nothing_witness :
  total_loaded
    (load_raw_to_db (λ _, true)
       (raw_jobs (load_raw_to_db (λ _, true) [] [Postings twice_a]))
       [Postings twice_a]) = 0.
Proof.
  exact (proj1 (loader_second_run_loads_nothing
                  (λ _, true) (λ _, true) [] (Postings twice_a) eq_refl)).
Defined.

(** C9, as the code has it.  The loaded count is the number of rows
    appended to [raw_jobs].  Each batch adds to the skipped count the
    number of its rows whose identifier is in the ledger of that moment,
    and nothing else: the rows of the batch are those and the rows left
    for [drop_duplicates], of which the ones accepted are counted as
    loaded when the write succeeds. *)
Theorem loader_counts
    (to_sql_ok : nat → bool) (db : frame) (earlier_files : list batch) (b : batch) :
  let st := load_raw_to_db to_sql_ok db earlier_files in
  let st' := load_raw_to_db to_sql_ok db (earlier_files ++ [b]) in
  length (raw_jobs st') = length db + total_loaded st' ∧
  match b with
  | Postings df =>
      let hits := filter (λ r, job_id r ∈ existing_set st) df in
      total_skipped st' = total_skipped st + length hits ∧
      total_loaded st' = total_loaded st
        + (if to_sql_ok (attempts st)
           then length (accepted (existing_set st) df) else 0) ∧
      length df = length hits + length (not_isin (existing_set st) df)
  | Unkeyed _ =>
      total_skipped st' = total_skipped st ∧ total_loaded st' = total_loaded st
  end.
Proof.
  cbv zeta. split; [apply loaded_eq_appended|].
  rewrite load_raw_to_db_snoc.
  set (st := load_raw_to_db to_sql_ok db earlier_files).
  destruct b as [[|r df]|n]; [|clearbody st|done].
  - simpl. destruct (to_sql_ok _); auto with lia.
  - destruct (load_file_postings to_sql_ok st (r :: df)) as (_ & _ & H3 & H4); [done|].
    pose proof (length_hits (existing_set st) (r :: df)) as Hh.
    rewrite H3, H4. repeat split; lia.
Qed.

(** C9 fails as stated: of two rows with one new identifier one is
    loaded and none is counted as skipped. *)
Lemma loader_repeat_not_counted :
  let st := load_raw_to_db (λ _, true) [] [Postings twice_a] in
  total_loaded st = 1 ∧ total_skipped st = 0 ∧
  total_loaded st + total_skipped st ≠ length twice_a.
Proof. vm_compute. repeat split; lia. Qed.

End LoaderProps.

(** ** Text primitives *)

Module TextProps.

Import Text.

Lemma lstrip_head s :
  lstrip s = EmptyString ∨ ∃ c t, lstrip s = String c t ∧ is_space c = false.
Proof.
  induction s as [|c s IH]; simpl; [by left|].
  destruct (is_space c) eqn:E; [done|]. right. by exists c, s.
Qed.

Lemma lstrip_empty s : lstrip s = EmptyString ↔ all_space s = true.
Proof.
  induction s as [|c s IH]; simpl; [done|].
  destruct (is_space c); simpl; [done|]. split; discriminate.
Qed.

Lemma rstrip_empty s : rstrip s = EmptyString ↔ all_space s = true.
Proof.
  induction s as [|c s IH]; simpl; [done|].
  destruct (rstrip s) eqn:E, (is_space c); simpl.
  - rewrite <- IH. done.
  - split; discriminate.
  - rewrite <- IH. split; discriminate.
  - split; discriminate.
Qed.

Lemma strip_empty s : strip s = EmptyString ↔ all_space s = true.
Proof.
  unfold strip. rewrite rstrip_empty. split.
  - intros H. apply lstrip_empty.
    destruct (lstrip_head s) as [E|(c & t & E & Hc)]; [done|].
    rewrite E in H. simpl in H. by rewrite Hc in H.
  - intros H. apply lstrip_empty in H. by rewrite H.
Qed.




Lemma contains_char_cons c d s :
  contains (String c EmptyString) (String d s)
  = bool_decide (c = d) || contains (String c EmptyString) s.
Proof. simpl. by rewrite andb_true_r. Qed.




End TextProps.

(** ** The cleaning stages *)

Module CleaningProps.

Import Text TextProps Cleaning.

Lemma is_empty_value_spec s :
  is_empty_value s = true ↔ strip s = "" ∨ lower s ∈ absent_literals.
Proof.
  unfold is_empty_value, matches_word_ci, absent_literals.
  rewrite !orb_true_iff, !bool_decide_eq_true, strip_empty.
  rewrite !elem_of_cons, elem_of_nil. tauto.
Qed.

(** C8, as the code has it.  A text cell becomes missing exactly when
    it is empty or blank, or when it is one of the words null, none and
    nan in any case, alone or followed by one newline; any other cell is
    unchanged.  Every text column of a row is treated so, and the
    number and time columns are not touched. *)
Theorem clean_empty_cell_exact :
  clean_empty_cell None = None ∧
  (∀ s, clean_empty_cell (Some s)
        = if decide (strip s = "" ∨ lower s ∈ absent_literals)
          then None else Some s) ∧
  (∀ r,
     let r' := clean_empty_row r in
     job_id r' = clean_empty_cell (job_id r) ∧
     source r' = clean_empty_cell (source r) ∧
     title r' = clean_empty_cell (title r) ∧
     company r' = clean_empty_cell (company r) ∧
     location r' = clean_empty_cell (location r) ∧
     salary_text r' = clean_empty_cell (salary_text r) ∧
     job_type r' = clean_empty_cell (job_type r) ∧
     posted_date r' = clean_empty_cell (posted_date r) ∧
     search_query r' = clean_empty_cell (search_query r) ∧
     search_location r' = clean_empty_cell (search_location r) ∧
     salary_min r' = salary_min r ∧ salary_max r' = salary_max r ∧
     scraped_at r' = scraped_at r).
Proof.
  split; [done|]. split; [|by intros r].
  intros s. unfold clean_empty_cell.
  destruct (is_empty_value s) eqn:E.
  - rewrite decide_True; [done|]. by apply is_empty_value_spec.
  - rewrite decide_False; [done|]. rewrite <- is_empty_value_spec. congruence.
Qed.

(** C8 fails as stated: the word null between two blanks is kept. *)
Lemma padded_null_is_kept :
  absent_by_claim " null " = true ∧
  clean_empty_cell (Some " null ") = Some " null ".
Proof. split; reflexivity. Qed.

Arguments STATE_CODES : simpl never.
Arguments STATE_NAME_TO_CODE : simpl never.


Lemma as_state_code_Some s :
  as_state_code (Some s)
  = if decide (upper (strip s) ∈ STATE_CODES) then Some (upper (strip s)) else None.
Proof. reflexivity. Qed.

Lemma resolve_state_no_remainder search :
  resolve_state None search = as_state_code search.
Proof. by destruct search. Qed.





Lemma rule_eq_code cues bound factor r :
  (let has_cue := str_contains cues (salary_text r) in
   let needs_fix := has_cue && present_below (Qc_of_Z bound) (salary_min r) in
   if needs_fix then rescale (Qc_of_Z factor) r else r)
  = rule cues bound factor r.
Proof.
  cbv zeta. unfold rule, str_contains, present_below, contains_any_ci.
  destruct (salary_text r) as [text|]; simpl.
  - destruct (salary_min r) as [mn|] eqn:E; simpl.
    + destruct (_ && _); [|done]. unfold rescale, times. by rewrite E.
    + by rewrite andb_false_r.
  - by destruct (salary_min r).
Qed.

Lemma correct_salary_units_cons r df :
  correct_salary_units (r :: df)
  = match correct_row r with
    | Some r' => r' :: correct_salary_units df
    | None => correct_salary_units df
    end.
Proof.
  unfold correct_salary_units, drop_per_unit_wages, fix_weekly_wages,
    fix_monthly_wages, fix_hourly_wages, fix_k_notation.
  rewrite !fmap_cons, filter_cons, !rule_eq_code.
  unfold correct_row, str_contains, contains_any_ci.
  set (r4 := rule _ 5000 52 _).
  destruct (salary_text r4) as [text|]; cbn [existsb].
  - rewrite orb_false_r. destruct (contains "per unit" (lower text)).
    + by rewrite decide_False.
    + by rewrite decide_True.
  - by rewrite decide_True.
Qed.

Lemma Qc_of_Z_mult (a b c : Z) :
  (a * b)%Z = c → (Qc_of_Z a * Qc_of_Z b)%Qc = Qc_of_Z c.
Proof. intros <-. symmetry. apply Z2Qc_inj_mul. Qed.

(** C2.  The corrector is the chain of the five rules applied to each
    row in the order k-notation, hourly, monthly, weekly, per-unit, each
    guard read on the values the rules before it left; the two examples
    of the specification hold whatever the other columns are. *)
Theorem salary_units_corrected_in_order :
  (∀ df, correct_salary_units df = omap correct_row df) ∧
  (∀ jid src ttl co loc jt pd sq sl sa city st,
     correct_row
       (Posting jid src ttl co loc (Some "$100k - $130k a year")
          (Some (Qc_of_Z 100)) (Some (Qc_of_Z 130)) jt pd sq sl sa city st)
     = Some
         (Posting jid src ttl co loc (Some "$100k - $130k a year")
            (Some (Qc_of_Z 100000)) (Some (Qc_of_Z 130000)) jt pd sq sl sa city st)) ∧
  (∀ jid src ttl co loc mx jt pd sq sl sa city st,
     correct_row
       (Posting jid src ttl co loc (Some "$25 per hour")
          (Some (Qc_of_Z 25)) mx jt pd sq sl sa city st)
     = Some
         (Posting jid src ttl co loc (Some "$25 per hour")
            (Some (Qc_of_Z 52000))
            ((λ x, x * Qc_of_Z 2080)%Qc <$> mx) jt pd sq sl sa city st)).
Proof.
  split; [|split].
  - induction df as [|r df IH]; [done|].
    rewrite correct_salary_units_cons. simpl. rewrite IH.
    by destruct (correct_row r).
  - intros. unfold correct_row.
    assert (rule ["k"] 1000 1000
              (Posting jid src ttl co loc (Some "$100k - $130k a year")
                 (Some (Qc_of_Z 100)) (Some (Qc_of_Z 130)) jt pd sq sl sa city st)
            = Posting jid src ttl co loc (Some "$100k - $130k a year")
                (Some (Qc_of_Z 100000)) (Some (Qc_of_Z 130000)) jt pd sq sl sa city st)
      as ->.
    { unfold rule, with_salary. simpl.
      by rewrite !(Qc_of_Z_mult _ _ _ eq_refl). }
    reflexivity.
  - intros. unfold correct_row.
    assert (rule ["k"] 1000 1000
              (Posting jid src ttl co loc (Some "$25 per hour")
                 (Some (Qc_of_Z 25)) mx jt pd sq sl sa city st)
            = Posting jid src ttl co loc (Some "$25 per hour")
                (Some (Qc_of_Z 25)) mx jt pd sq sl sa city st) as -> by reflexivity.
    assert (rule ["per hour"; "/hour"; "an hour"] 200 2080
              (Posting jid src ttl co loc (Some "$25 per hour")
                 (Some (Qc_of_Z 25)) mx jt pd sq sl sa city st)
            = Posting jid src ttl co loc (Some "$25 per hour")
                (Some (Qc_of_Z 52000)) ((λ x, x * Qc_of_Z 2080)%Qc <$> mx)
                jt pd sq sl sa city st) as ->.
    { unfold rule, with_salary. simpl.
      by rewrite !(Qc_of_Z_mult _ _ _ eq_refl). }
    reflexivity.
Qed.

(** C10.  A row without [salary_text] is changed by none of the four
    rescaling stages and is kept by the per-unit stage; in any frame it
    comes out of the corrector unchanged and in its place. *)
Theorem corrector_keeps_rows_without_salary_text (r : posting) :
  salary_text r = None →
  fix_k_notation [r] = [r] ∧ fix_hourly_wages [r] = [r] ∧
  fix_monthly_wages [r] = [r] ∧ fix_weekly_wages [r] = [r] ∧
  drop_per_unit_wages [r] = [r] ∧
  ∀ before after,
    correct_salary_units (before ++ r :: after)
    = correct_salary_units before ++ r :: correct_salary_units after.
Proof.
  intros H.
  unfold fix_k_notation, fix_hourly_wages, fix_monthly_wages, fix_weekly_wages,
    drop_per_unit_wages.
  rewrite filter_cons. simpl. rewrite H. simpl.
  repeat (split; [done|]).
  intros before after.
  assert (correct_row r = Some r) as Hrow.
  { unfold correct_row, rule. by rewrite !H. }
  induction before as [|x before IH]; simpl.
  - by rewrite correct_salary_units_cons, Hrow.
  - rewrite !correct_salary_units_cons, IH. by destruct (correct_row x).
Qed.

Lemma corrector_keeps_rows_without_salary_text_witness :
  correct_salary_units [untexted] = [untexted].
Proof.
  destruct (corrector_keeps_rows_without_salary_text untexted eq_refl)
    as (_ & _ & _ & _ & _ & H).
  exact (H [] []).
Defined.


(** *** Salary imputer *)

Section ZipWith.

Context {A B : Type}.

Lemma zip_with_twice (f g : A → B → B) (l : list A) (k : list B) :
  zip_with f l (zip_with g l k) = zip_with (λ a b, f a (g a b)) l k.
Proof.
  revert k. induction l as [|a l IH]; intros [|b k]; simpl; [done..|].
  by rewrite IH.
Qed.

Lemma zip_with_keep (l : list A) (k : list B) :
  length l = length k → zip_with (λ _ b, b) l k = k.
Proof.
  revert k. induction l as [|a l IH]; intros [|b k]; simpl; try done.
  intros [=]. by rewrite IH.
Qed.

Lemma zip_with_of_fmap (f : A → B → B) (g : B → A) (k : list B) :
  zip_with f (g <$> k) k = (λ b, f (g b) b) <$> k.
Proof. induction k as [|b k IH]; csimpl; [done|]. by rewrite IH. Qed.

End ZipWith.

Lemma impute_source_cells spreads om df src :
  length om = length df →
  impute_source spreads om df src = zip_with (impute_cell spreads src) om df.
Proof.
  intros Hlen. unfold impute_source.
  destruct (existsb id _) eqn:E.
  - clear. revert om. induction df as [|r df IH]; intros [|m om]; simpl; [done..|].
    rewrite IH. by f_equal.
  - revert om Hlen E. induction df as [|r df IH]; intros [|m om]; simpl; try done.
    intros [=Hlen] [E1 E2]%orb_false_iff. rewrite <- IH by done.
    f_equal. unfold impute_cell. unfold id in E1. by rewrite E1.
Qed.

Lemma impute_fold_cells spreads om srcs df :
  length om = length df →
  fold_left (impute_source spreads om) srcs df
  = zip_with (λ m r, fold_left (λ r' src, impute_cell spreads src m r') srcs r) om df.
Proof.
  revert df. induction srcs as [|src srcs IH]; intros df Hlen; simpl.
  - by rewrite zip_with_keep.
  - rewrite impute_source_cells by done.
    rewrite IH by (by rewrite length_zip_with_r_eq).
    apply zip_with_twice.
Qed.

Lemma fill_max_source spread r : source (fill_max spread r) = source r.
Proof. unfold fill_max. by destruct (decide _). Qed.

Lemma fill_max_idemp spread r : fill_max spread (fill_max spread r) = fill_max spread r.
Proof. unfold fill_max. by destruct (decide _). Qed.

Lemma impute_cell_fixed spreads s r src :
  source r = Some s →
  impute_cell spreads src true (fill_max (default (Qc_of_Z 10000) (spreads !! s)) r)
  = fill_max (default (Qc_of_Z 10000) (spreads !! s)) r.
Proof.
  intros Hs. unfold impute_cell. rewrite fill_max_source, Hs.
  destruct src as [s'|]; simpl; [|done].
  case_bool_decide as E; [|done]. subst s'. simpl. apply fill_max_idemp.
Qed.

Lemma impute_cell_other spreads s r src :
  source r = Some s → src ≠ Some s → impute_cell spreads src true r = r.
Proof.
  intros Hs Hne. unfold impute_cell. rewrite Hs.
  destruct src as [s'|]; simpl; [|done].
  rewrite bool_decide_eq_false_2; [done|congruence].
Qed.

Lemma impute_cell_same spreads s r :
  source r = Some s →
  impute_cell spreads (Some s) true r
  = fill_max (default (Qc_of_Z 10000) (spreads !! s)) r.
Proof.
  intros Hs. unfold impute_cell. rewrite Hs. simpl.
  by rewrite bool_decide_eq_true_2.
Qed.

Lemma impute_cells_row spreads srcs r :
  source r ∈ srcs →
  fold_left (λ r' src, impute_cell spreads src (only_min r) r') srcs r
  = impute_row spreads r.
Proof.
  unfold impute_row. destruct (only_min r) eqn:Hm.
  2:{ intros _. induction srcs as [|src srcs IH]; simpl; [by destruct (source r)|].
      exact IH. }
  destruct (source r) as [s|] eqn:Hs.
  2:{ intros _. induction srcs as [|src srcs IH]; simpl; [done|].
      unfold impute_cell at 2. by rewrite Hs. }
  induction srcs as [|src srcs IH]; simpl.
  - intros H. inversion H.
  - intros Hin. destruct (decide (src = Some s)) as [->|Hne].
    + rewrite impute_cell_same by done. clear IH Hin.
      induction srcs as [|src srcs IH]; simpl; [done|].
      by rewrite impute_cell_fixed.
    + rewrite (impute_cell_other _ s) by done.
      apply IH. apply elem_of_cons in Hin as [?|?]; [congruence|done].
Qed.

Lemma elem_of_unique {A} `{EqDecision A} (l : list A) x : x ∈ unique l ↔ x ∈ l.
Proof.
  induction l as [|y l IH]; simpl; [done|].
  rewrite !elem_of_cons, list_elem_of_filter, IH.
  destruct (decide (x = y)); tauto.
Qed.

Lemma impute_rows df :
  impute_missing_max_by_source df = impute_row (median_spreads df) <$> df.
Proof.
  unfold impute_missing_max_by_source, only_min_mask.
  rewrite impute_fold_cells by (by rewrite length_fmap).
  rewrite (zip_with_of_fmap
             (λ m r, fold_left (λ r' src, impute_cell (median_spreads df) src m r')
                       (unique (source <$> df)) r)).
  apply list_fmap_ext. intros i r Hr.
  apply (impute_cells_row (median_spreads df)).
  apply elem_of_unique, list_elem_of_fmap_2, list_elem_of_lookup. eauto.
Qed.

Lemma median_nil : median [] = None.
Proof. reflexivity. Qed.

Lemma median_is_Some l : l ≠ [] → is_Some (median l).
Proof.
  intros Hl. unfold median.
  pose proof (Permutation_length (merge_sort_Permutation Qcle l)) as Hlen.
  set (s := merge_sort Qcle l) in *. clearbody s.
  assert (0 < length s) as Hpos.
  { rewrite Hlen. destruct l; [done|simpl; lia]. }
  clear Hlen Hl.
  destruct (lookup_lt_is_Some_2 s (length s / 2)) as [b Hb].
  { apply Nat.div_lt; lia. }
  destruct (lookup_lt_is_Some_2 s (length s / 2 - 1)) as [a Ha].
  { pose proof (Nat.div_lt (length s) 2). lia. }
  rewrite Ha, Hb. simpl. destruct (Nat.even _); eauto.
Qed.

Lemma median_spreads_lookup df s :
  median_spreads df !! s = median (group_spreads df s).
Proof.
  unfold median_spreads.
  set (keys := omap source _).
  destruct (median (group_spreads df s)) as [m|] eqn:Hm.
  - apply elem_of_list_to_map_1'.
    + intros y (s' & _ & Hy)%list_elem_of_omap.
      destruct (median (group_spreads df s')) eqn:E; simplify_eq/=. congruence.
    + apply list_elem_of_omap. exists s. rewrite Hm. split; [|done].
      assert (group_spreads df s ≠ []) as Hne by (by intros E; rewrite E in Hm).
      unfold group_spreads in Hne.
      destruct (omap spread_of (filter (λ r, source r = Some s) df))
        as [|q qs] eqn:Hq; [done|].
      assert (q ∈ omap spread_of (filter (λ r, source r = Some s) df))
        as (r & [Hsrc Hr]%list_elem_of_filter & Hsp)%list_elem_of_omap
        by (rewrite Hq; left).
      apply list_elem_of_omap. exists r. split; [|done].
      apply list_elem_of_filter. split; [|done]. by rewrite Hsp.
  - apply not_elem_of_list_to_map_1.
    intros ((s' & y) & -> & (s'' & _ & Hy)%list_elem_of_omap)%list_elem_of_fmap.
    destruct (median (group_spreads df s'')) eqn:E; simplify_eq/=.
Qed.

Lemma only_min_true r mn :
  salary_min r = Some mn → salary_max r = None → only_min r = true.
Proof. intros H1 H2. unfold only_min. by rewrite H1, H2. Qed.

(** C5.  The spread of a source is the median of [salary_max -
    salary_min] over its rows with both bounds.  A row of a source with
    only [salary_min] gets [salary_max = salary_min + spread], which is
    [salary_min] when the spread is zero, the spread being 10000 when
    the source has no row with both bounds; a row with neither bound is
    unchanged.  With spread 15000 a minimum of 80000 gives 95000. *)
Theorem imputer_fills_max_from_source_spread (df : frame) :
  (∀ s, median_spreads df !! s = median (group_spreads df s)) ∧
  (∀ i r s mn,
     df !! i = Some r → source r = Some s →
     salary_min r = Some mn → salary_max r = None →
     let spread := default (Qc_of_Z 10000) (median_spreads df !! s) in
     impute_missing_max_by_source df !! i
     = Some (with_salary_max (Some (mn + spread)%Qc) r) ∧
     (spread = Qc_of_Z 0 →
      impute_missing_max_by_source df !! i = Some (with_salary_max (Some mn) r)) ∧
     (group_spreads df s = [] → spread = Qc_of_Z 10000) ∧
     (median_spreads df !! s = Some (Qc_of_Z 15000) → mn = Qc_of_Z 80000 →
      salary_max <$> impute_missing_max_by_source df !! i
      = Some (Some (Qc_of_Z 95000)))) ∧
  (∀ i r,
     df !! i = Some r → salary_min r = None → salary_max r = None →
     impute_missing_max_by_source df !! i = Some r).
Proof.
  split; [apply median_spreads_lookup|]. split.
  - intros i r s mn Hi Hs Hmn Hmx spread.
    assert (impute_missing_max_by_source df !! i
            = Some (with_salary_max (Some (mn + spread)%Qc) r)) as Hmain.
    { rewrite impute_rows, list_lookup_fmap, Hi. simpl. f_equal.
      unfold impute_row. rewrite Hs, (only_min_true r mn) by done.
      fold spread. unfold fill_max. rewrite Hmn. simpl.
      destruct (decide (spread = Qc_of_Z 0)) as [E|E]; [|done].
      rewrite E. f_equal. f_equal. symmetry. apply Qcplus_0_r. }
    split; [exact Hmain|]. split; [|split].
    + intros E. rewrite Hmain, E. do 3 f_equal. apply Qcplus_0_r.
    + intros E. unfold spread. by rewrite median_spreads_lookup, E.
    + intros E ->. rewrite Hmain. unfold spread. rewrite E. simpl.
      do 2 f_equal. symmetry. apply (Z2Qc_inj_add 80000 15000).
  - intros i r Hi Hmn Hmx.
    rewrite impute_rows, list_lookup_fmap, Hi. simpl. f_equal.
    unfold impute_row, only_min. rewrite Hmn. simpl. by destruct (source r).
Qed.

Lemma imputer_fills_max_from_source_spread_witness :
  salary_max <$> impute_missing_max_by_source sample_spreads !! 1
  = Some (Some (Qc_of_Z 95000)).
Proof.
  destruct (imputer_fills_max_from_source_spread sample_spreads) as (Hmed & H & _).
  destruct (H 1 (priced (Some "X") (Some 80000%Z) None) "X" (Qc_of_Z 80000)
              eq_refl eq_refl eq_refl eq_refl) as (_ & _ & _ & Hx).
  apply Hx; [|done].
  rewrite Hmed. vm_compute. f_equal. by apply Qc_is_canon.
Defined.

(** C4 fails on the code: a row that has no source and has only
    [salary_min] leaves the imputer without [salary_max]; so does, at
    the end of [run_full_cleaning], a row of [raw_jobs] whose source is
    the empty text. *)
Theorem imputer_skips_rows_without_source :
  impute_missing_max_by_source [sourceless] = [sourceless] ∧
  salary_min sourceless = Some (Qc_of_Z 50000) ∧
  salary_max sourceless = None ∧
  pricing <$> run_full_cleaning [raw_blank_source]
  = Some [(None, Some (Qc_of_Z 50000), None)].
Proof. repeat split; reflexivity. Qed.

(** The rows that do have a source leave the imputer with both bounds
    or with no [salary_min]. *)
Lemma imputer_fills_rows_with_source df r :
  r ∈ impute_missing_max_by_source df →
  is_Some (source r) → is_Some (salary_min r) → is_Some (salary_max r).
Proof.
  rewrite impute_rows. intros (r0 & -> & _)%list_elem_of_fmap.
  unfold impute_row. destruct (source r0) as [s|] eqn:Hs.
  2:{ rewrite Hs. by intros []. }
  destruct (only_min r0) eqn:Hm.
  - intros _. unfold fill_max.
    unfold only_min in Hm. apply andb_true_iff in Hm as [Hm _].
    apply bool_decide_eq_true in Hm as [mn Hmn].
    destruct (decide _); simpl; rewrite Hmn; eauto.
  - intros _ Hmn. unfold only_min in Hm.
    rewrite (bool_decide_eq_true_2 _ Hmn) in Hm. simpl in Hm.
    apply bool_decide_eq_false in Hm. by destruct (salary_max r0).
Qed.


(** *** Finalizer *)








Lemma drop_muse_filter (df : frame) :
  drop_muse df = filter (λ r, source r ≠ Some "Muse") df.
Proof.
  unfold drop_muse. destruct (decide _) as [|Hn]; [done|].
  induction df as [|r df IH]; [done|].
  rewrite fmap_cons, not_elem_of_cons in Hn. destruct Hn as [Hr Hn].
  rewrite filter_cons, decide_True by done. by rewrite <- IH.
Qed.


Lemma sooner_first_trans : Transitive sooner_first.
Proof.
  intros a b c. unfold sooner_first.
  destruct (scraped_at a), (scraped_at b), (scraped_at c); try done. lia.
Qed.

Lemma sooner_first_total : Total sooner_first.
Proof.
  intros a b. unfold sooner_first.
  destruct (scraped_at a), (scraped_at b); auto. lia.
Qed.

#[local] Existing Instances sooner_first_trans sooner_first_total.

Lemma sooner_first_refl a : sooner_first a a.
Proof. by destruct (sooner_first_total a a). Qed.

Lemma drop_duplicates_keeps_first_of_sorted (df : frame) r :
  Sorted sooner_first df → r ∈ df →
  ∃ k, k ∈ drop_duplicates df ∧ job_id k = job_id r ∧ sooner_first k r.
Proof.
  intros Hsorted Hr. apply Sorted_StronglySorted in Hsorted; [|apply _].
  destruct (drop_duplicates_from_covers ∅ df r Hr) as (k & Hk & Hid);
    [apply not_elem_of_empty|].
  exists k. split; [done|]. split; [done|].
  destruct (drop_duplicates_from_first _ _ _ Hk) as (df1 & df2 & -> & Hfirst).
  apply elem_of_app in Hr as [Hr|Hr].
  - destruct Hfirst. rewrite Hid. by apply list_elem_of_fmap_2.
  - apply StronglySorted_app_1_r in Hsorted.
    apply elem_of_cons in Hr as [->|Hr]; [apply sooner_first_refl|].
    apply StronglySorted_inv in Hsorted as [_ Hall].
    by eapply Forall_forall in Hall.
Qed.

Section Finalizer.

Variable sort_values : frame → frame.
Hypothesis sort_values_perm : ∀ df, sort_values df ≡ₚ df.
Hypothesis sort_values_sorted : ∀ df, Sorted sooner_first (sort_values df).


End Finalizer.

Lemma sort_values_merge_perm (df : frame) : sort_values_merge df ≡ₚ df.
Proof. apply merge_sort_Permutation. Qed.

Lemma sort_values_merge_sorted (df : frame) :
  Sorted sooner_first (sort_values_merge df).
Proof. apply Sorted_merge_sort, _. Qed.



End CleaningProps.

Module LoaderExtra.

Import Loader LoaderProps.

Implicit Types (seen ledger : gset (option string)) (df : frame).

Lemma rows_of_snoc files b :
  rows_of (files ++ [b])
  = rows_of files ++ match b with Postings df => df | Unkeyed _ => [] end.
Proof.
  induction files as [|[df'|n] files IH]; simpl.
  - destruct b; simpl; by rewrite ?app_nil_r.
  - by rewrite IH, (assoc_L (++)).
  - exact IH.
Qed.

Lemma ids_accepted ledger df : ledger ∪ ids (accepted ledger df) = ledger ∪ ids df.
Proof.
  unfold accepted. rewrite ids_drop_duplicates. apply set_eq. intros i.
  rewrite !elem_of_union, !elem_of_ids. split.
  - intros [?|(r & [_ Hr]%list_elem_of_filter & <-)]; eauto.
  - intros [?|(r & Hr & <-)]; [by left|].
    destruct (decide (job_id r ∈ ledger)); [by left|right].
    exists r. split; [|done]. by apply list_elem_of_filter.
Qed.

Lemma ids_nil : ids [] = ∅.
Proof. reflexivity. Qed.

Lemma accepted_nil ledger : accepted ledger [] = [].
Proof. reflexivity. Qed.

(** One iteration, whatever the batch. *)
Lemma load_file_any ok st b :
  let df := match b with Postings df => df | Unkeyed _ => [] end in
  let acc := accepted (existing_set st) df in
  let st' := load_file ok st b in
  existing_set st' = existing_set st ∪ ids df ∧
  raw_jobs st' = raw_jobs st ++ (if ok (attempts st) then acc else []) ∧
  total_loaded st' = total_loaded st + (if ok (attempts st) then length acc else 0) ∧
  total_skipped st' = total_skipped st + (length df - length (not_isin (existing_set st) df)).
Proof.
  cbv zeta. destruct b as [[|r df]|n].
  - cbn [load_file]. rewrite ids_nil, accepted_nil, (right_id_L ∅ (∪)).
    destruct (ok _); rewrite ?app_nil_r; simpl; auto with lia.
  - destruct (load_file_postings ok st (r :: df)) as (H1 & H2 & H3 & H4); [done|].
    rewrite H1, ids_accepted. auto.
  - cbn [load_file]. rewrite ids_nil, accepted_nil, (right_id_L ∅ (∪)).
    destruct (ok _); rewrite ?app_nil_r; simpl; auto with lia.
Qed.

Lemma ledger_after_run ok db files :
  existing_set (load_raw_to_db ok db files) = ids db ∪ ids (rows_of files).
Proof.
  induction files as [|b files IH] using rev_ind.
  - change (ids db = ids db ∪ ids []). by rewrite ids_nil, (right_id_L ∅ (∪)).
  - rewrite load_raw_to_db_snoc, rows_of_snoc, ids_app.
    destruct (load_file_any ok (load_raw_to_db ok db files) b) as (H1 & _).
    rewrite H1, IH. by rewrite (assoc_L (∪)).
Qed.

Lemma ids_Permutation (df1 df2 : frame) : df1 ≡ₚ df2 → ids df1 = ids df2.
Proof.
  intros H. apply set_eq. intros i. rewrite !elem_of_ids.
  by setoid_rewrite H.
Qed.

Lemma rows_of_Permutation files1 files2 :
  files1 ≡ₚ files2 → rows_of files1 ≡ₚ rows_of files2.
Proof.
  induction 1 as [|b ?? _ IH|b1 b2 ?|???? IH1 ? IH2]; simpl.
  - done.
  - destruct b; by rewrite ?IH.
  - destruct b1, b2; try done.
    rewrite !(assoc_L (++)). f_equiv. apply Permutation_app_comm.
  - by rewrite IH1.
Qed.

(** X1.  At the end of a run the ledger holds the identifiers of the
    table read at the start and of every row of every file that has a
    [job_id] column, whether the writes succeeded or not, and in
    whatever order the files were read. *)
Theorem ledger_is_table_and_files ok db files :
  existing_set (load_raw_to_db ok db files) = ids db ∪ ids (rows_of files) ∧
  ∀ ok' files', files ≡ₚ files' →
    existing_set (load_raw_to_db ok' db files')
    = existing_set (load_raw_to_db ok db files).
Proof.
  split; [apply ledger_after_run|].
  intros ok' files' Hp. rewrite !ledger_after_run.
  by rewrite (ids_Permutation _ _ (rows_of_Permutation _ _ Hp)).
Qed.

(** What a run started in any state appends to the table. *)
Lemma fold_appends ok files st :
  let st' := fold_left (load_file ok) files st in
  existing_set st' = existing_set st ∪ ids (rows_of files) ∧
  ∃ new,
    raw_jobs st' = raw_jobs st ++ new ∧
    (∀ r, r ∈ new → r ∈ rows_of files ∧ job_id r ∉ existing_set st) ∧
    NoDup (job_id <$> new) ∧
    total_loaded st' = total_loaded st + length new ∧
    total_loaded st' + total_skipped st'
    ≤ total_loaded st + total_skipped st + length (rows_of files).
Proof.
  cbv zeta. induction files as [|b files IH] using rev_ind.
  - simpl. rewrite ids_nil, (right_id_L ∅ (∪)). split; [done|].
    exists []. rewrite app_nil_r. split; [done|]. split; [|split; [|split]].
    + intros r Hr. inversion Hr.
    + constructor.
    + simpl. lia.
    + simpl. lia.
  - rewrite fold_left_app. simpl fold_left.
    set (st1 := fold_left (load_file ok) files st) in *.
    destruct IH as (Hset & new & Hraw & Hnew & Hdup & Hload & Hcount).
    destruct (load_file_any ok st1 b) as (H1 & H2 & H3 & H4).
    rewrite rows_of_snoc, ids_app.
    set (df := match b with Postings df => df | Unkeyed _ => [] end) in *.
    split; [rewrite H1, Hset; by rewrite (assoc_L (∪))|].
    set (acc := if ok (attempts st1) then accepted (existing_set st1) df else []).
    assert (acc `sublist_of` df) as Hsub.
    { unfold acc. destruct (ok _); [|apply sublist_nil_l].
      unfold accepted, drop_duplicates.
      etrans; [apply drop_duplicates_from_sublist|apply sublist_filter]. }
    assert (∀ r, r ∈ acc → job_id r ∉ existing_set st1) as Hfresh.
    { unfold acc. destruct (ok _); [|by intros r Hr; inversion Hr].
      intros r Hr. unfold accepted, drop_duplicates in Hr.
      eapply elem_of_sublist in Hr; [|apply drop_duplicates_from_sublist].
      by apply list_elem_of_filter in Hr as [? _]. }
    assert (NoDup (job_id <$> acc)) as Hdup'.
    { unfold acc. destruct (ok _); [apply NoDup_drop_duplicates_from|constructor]. }
    exists (new ++ acc). split; [|split; [|split; [|split]]].
    + rewrite H2, Hraw. fold acc. by rewrite (assoc_L (++)).
    + intros r [Hr|Hr]%elem_of_app.
      * destruct (Hnew r Hr). split; [|done]. apply elem_of_app. by left.
      * split; [apply elem_of_app; right; by eapply elem_of_sublist|].
        intros Hin. apply (Hfresh r Hr). rewrite Hset. apply elem_of_union. by left.
    + rewrite fmap_app. apply NoDup_app. split; [done|]. split; [|done].
      intros i (r & -> & Hr)%list_elem_of_fmap (r' & Heq & Hr')%list_elem_of_fmap.
      apply (Hfresh r' Hr'). rewrite <- Heq, Hset. apply elem_of_union. right.
      apply elem_of_ids. exists r. split; [|done]. by apply Hnew.
    + rewrite H3, Hload, length_app. unfold acc. destruct (ok _); simpl; lia.
    + rewrite H3, H4, length_app.
      pose proof (length_filter (λ r, job_id r ∉ existing_set st1) df) as Hf.
      fold (not_isin (existing_set st1) df) in Hf.
      assert ((if ok (attempts st1) then length (accepted (existing_set st1) df) else 0)
              ≤ length (not_isin (existing_set st1) df)) as Hle.
      { destruct (ok _); [|lia]. unfold accepted, drop_duplicates.
        apply sublist_length, drop_duplicates_from_sublist. }
      lia.
Qed.

(** X2.  A run only appends to [raw_jobs]: the table it leaves is the
    table it found followed by rows of the files whose identifiers are
    not in the table it found and are pairwise distinct, and
    [total_loaded] is their number. *)
Theorem run_only_appends_new_identifiers ok db files :
  ∃ new,
    raw_jobs (load_raw_to_db ok db files) = db ++ new ∧
    (∀ r, r ∈ new → r ∈ rows_of files ∧ job_id r ∉ ids db) ∧
    NoDup (job_id <$> new) ∧
    total_loaded (load_raw_to_db ok db files) = length new.
Proof.
  destruct (fold_appends ok files (init db)) as (_ & new & H1 & H2 & H3 & H4 & _).
  exists new. auto.
Qed.

(** X3.  When the identifiers of [raw_jobs] are pairwise distinct at
    the start of a run, they are so at its end. *)
Theorem run_keeps_identifiers_distinct ok db files :
  NoDup (job_id <$> db) →
  NoDup (job_id <$> raw_jobs (load_raw_to_db ok db files)).
Proof.
  intros Hdb.
  destruct (fold_appends ok files (init db)) as (_ & new & H1 & H2 & H3 & _).
  unfold load_raw_to_db. rewrite H1. simpl raw_jobs.
  rewrite fmap_app. apply NoDup_app. split; [done|]. split; [|done].
  intros i (r & -> & Hr)%list_elem_of_fmap (r' & Heq & Hr')%list_elem_of_fmap.
  destruct (H2 r' Hr') as [_ Hn]. apply Hn. simpl. rewrite <- Heq.
  apply elem_of_ids. eauto.
Qed.

Lemma run_keeps_identifiers_distinct_witness :
  NoDup (job_id <$> raw_jobs (load_raw_to_db (λ _, true) [] three_batches)).
Proof.
  exact (run_keeps_identifiers_distinct (λ _, true) [] three_batches (NoDup_nil_2)).
Defined.

(** X4.  The loaded and the skipped count together never exceed the
    number of rows read from the files that have a [job_id] column. *)
Theorem counters_bounded_by_rows_read ok db files :
  let st := load_raw_to_db ok db files in
  total_loaded st + total_skipped st ≤ length (rows_of files).
Proof.
  cbv zeta.
  destruct (fold_appends ok files (init db)) as (_ & new & _ & _ & _ & _ & H).
  exact H.
Qed.

Lemma drop_duplicates_from_as_filter seen df :
  drop_duplicates_from seen df = drop_duplicates (not_isin seen df).
Proof.
  unfold drop_duplicates, not_isin.
  assert (∀ seen' seen,
            drop_duplicates_from (seen' ∪ seen) df
            = drop_duplicates_from seen' (filter (λ r, job_id r ∉ seen) df)) as H.
  { clear seen. induction df as [|r df IH]; intros seen' seen; [done|].
    rewrite filter_cons. cbn [drop_duplicates_from].
    destruct (decide (job_id r ∉ seen)) as [Hs|Hs].
    - cbn [drop_duplicates_from].
      destruct (decide (job_id r ∈ seen')) as [Hs'|Hs'].
      + rewrite decide_True by (apply elem_of_union; by left). apply IH.
      + rewrite decide_False by (rewrite elem_of_union; tauto).
        f_equal. rewrite (assoc_L (∪)). apply IH.
    - rewrite decide_True; [apply IH|].
      apply elem_of_union. right. by destruct (decide (job_id r ∈ seen)). }
  rewrite <- (H ∅ seen). by rewrite (left_id_L ∅ (∪)).
Qed.

Lemma drop_duplicates_from_app seen df1 df2 :
  drop_duplicates_from seen (df1 ++ df2)
  = drop_duplicates_from seen df1
    ++ drop_duplicates_from (seen ∪ ids df1) df2.
Proof.
  revert seen. induction df1 as [|r df1 IH]; intros seen.
  - simpl. by rewrite ids_nil, (right_id_L ∅ (∪)).
  - cbn [app drop_duplicates_from]. rewrite ids_cons.
    destruct (decide (job_id r ∈ seen)) as [Hs|Hs].
    + rewrite IH. do 2 f_equal. apply set_eq. intros i.
      rewrite !elem_of_union, elem_of_singleton. split; [tauto|].
      intros [?|[->|?]]; tauto.
    + cbn [app]. f_equal. rewrite IH. do 2 f_equal. apply set_eq. intros i.
      rewrite !elem_of_union, elem_of_singleton. tauto.
Qed.

Lemma not_isin_union ledger seen df :
  not_isin seen (not_isin ledger df) = not_isin (ledger ∪ seen) df.
Proof.
  unfold not_isin. rewrite list_filter_filter. apply list_filter_iff.
  intros r. rewrite elem_of_union. tauto.
Qed.

Lemma not_isin_ext ledger1 ledger2 df :
  (∀ r, r ∈ df → job_id r ∈ ledger1 ↔ job_id r ∈ ledger2) →
  not_isin ledger1 df = not_isin ledger2 df.
Proof.
  intros H. unfold not_isin. induction df as [|r df IH]; [done|].
  rewrite !filter_cons, IH by (intros; apply H; by right).
  apply decide_ext. rewrite (H r) by left. done.
Qed.

(** Accepting the rows of two batches one after the other is accepting
    the rows of their concatenation. *)
Lemma accepted_app ledger df1 df2 :
  accepted ledger (df1 ++ df2)
  = accepted ledger df1 ++ accepted (ledger ∪ ids df1) df2.
Proof.
  unfold accepted at 1 2, drop_duplicates.
  unfold not_isin at 1. rewrite filter_app. fold (not_isin ledger df1) (not_isin ledger df2).
  rewrite drop_duplicates_from_app, (left_id_L ∅ (∪)). f_equal.
  rewrite drop_duplicates_from_as_filter, not_isin_union. unfold accepted. f_equal.
  apply not_isin_ext. intros r _. rewrite !elem_of_union.
  pose proof (ids_not_isin ledger df1 (job_id r)) as Hin.
  rewrite elem_of_union in Hin. split; [|intros [?|?]; [by left|by apply Hin]].
  intros [?|(r' & [_ Hr']%list_elem_of_filter & E)%elem_of_ids]; [by left|right].
  apply elem_of_ids. eauto.
Qed.

Lemma run_all_ok ok db files :
  (∀ n, ok n = true) →
  raw_jobs (load_raw_to_db ok db files) = db ++ accepted (ids db) (rows_of files).
Proof.
  intros Hok. induction files as [|b files IH] using rev_ind.
  - change (db = db ++ accepted (ids db) []). by rewrite accepted_nil, app_nil_r.
  - rewrite load_raw_to_db_snoc, rows_of_snoc, accepted_app.
    destruct (load_file_any ok (load_raw_to_db ok db files) b) as (_ & H2 & _).
    rewrite H2, Hok, IH, ledger_after_run. by rewrite (assoc_L (++)).
Qed.

(** X5.  When every write succeeds, the outcome does not depend on how
    the rows are cut into files: the table is the old table followed by
    the first occurrences of the new identifiers among all rows in file
    order, as if the rows came in one file; the ledger and the loaded
    count agree too. *)
Theorem file_boundaries_do_not_matter ok db files :
  (∀ n, ok n = true) →
  let st := load_raw_to_db ok db files in
  let st1 := load_raw_to_db ok db [Postings (rows_of files)] in
  raw_jobs st = db ++ drop_duplicates (not_isin (ids db) (rows_of files)) ∧
  raw_jobs st = raw_jobs st1 ∧
  existing_set st = existing_set st1 ∧
  total_loaded st = total_loaded st1.
Proof.
  intros Hok. cbv zeta.
  assert (raw_jobs (load_raw_to_db ok db files)
          = raw_jobs (load_raw_to_db ok db [Postings (rows_of files)])) as Hraw.
  { rewrite !run_all_ok by done. simpl. by rewrite app_nil_r. }
  split; [by rewrite run_all_ok|]. split; [done|]. split.
  - rewrite !ledger_after_run. simpl. by rewrite app_nil_r.
  - pose proof (loaded_eq_appended ok db files) as H1.
    pose proof (loaded_eq_appended ok db [Postings (rows_of files)]) as H2.
    cbv zeta in H1, H2. rewrite Hraw in H1. lia.
Qed.

Lemma file_boundaries_do_not_matter_witness :
  job_id <$> raw_jobs (load_raw_to_db (λ _, true) [] three_batches)
  = [Some "a"; Some "b"; Some "c"].
Proof.
  destruct (file_boundaries_do_not_matter (λ _, true) [] three_batches
              (λ _, eq_refl)) as [H _].
  rewrite H. reflexivity.
Defined.

Lemma run_ids_in_ledger ok db files :
  ids (raw_jobs (load_raw_to_db ok db files))
  ⊆ existing_set (load_raw_to_db ok db files).
Proof.
  destruct (fold_appends ok files (init db)) as (Hset & new & H1 & H2 & _).
  unfold load_raw_to_db. rewrite H1, Hset. simpl.
  intros i (r & [Hr|Hr]%elem_of_app & <-)%elem_of_ids; apply elem_of_union.
  - left. apply elem_of_ids. eauto.
  - right. apply elem_of_ids. exists r. split; [|done]. by apply H2.
Qed.

(** X6.  When the write of a batch fails, the identifiers it accepted
    are in the ledger all the same: no row with one of them is in the
    table at the end of the run, whatever files follow. *)
Theorem failed_write_blocks_identifiers ok db before df after :
  let st := load_raw_to_db ok db before in
  ok (attempts st) = false →
  Forall (λ r, job_id r ∉ ids (accepted (existing_set st) df))
    (raw_jobs (load_raw_to_db ok db (before ++ Postings df :: after))).
Proof.
  cbv zeta. intros Hfail.
  set (st := load_raw_to_db ok db before) in *.
  assert (∀ r, job_id r ∈ ids (accepted (existing_set st) df) →
               (job_id r ∉ existing_set st) ∧ job_id r ∈ ids df) as Hacc.
  { intros r (r' & Hr' & E)%elem_of_ids. rewrite <- E.
    unfold accepted, drop_duplicates in Hr'.
    eapply elem_of_sublist in Hr'; [|apply drop_duplicates_from_sublist].
    apply list_elem_of_filter in Hr' as [? ?]. split; [done|].
    apply elem_of_ids. eauto. }
  assert (load_raw_to_db ok db (before ++ Postings df :: after)
          = fold_left (load_file ok) after (load_file ok st (Postings df))) as ->.
  { unfold st, load_raw_to_db. by rewrite fold_left_app. }
  destruct (load_file_any ok st (Postings df)) as (H1 & H2 & _).
  rewrite Hfail, app_nil_r in H2.
  destruct (fold_appends ok after (load_file ok st (Postings df)))
    as (_ & new & Hraw & Hnew & _).
  rewrite Hraw, H2. apply Forall_forall. intros r [Hr|Hr]%elem_of_app Hin.
  - destruct (Hacc r Hin) as [Hn _]. apply Hn.
    apply (run_ids_in_ledger ok db before). apply elem_of_ids. eauto.
  - destruct (Hnew r Hr) as [_ Hn]. apply Hn. rewrite H1.
    apply elem_of_union. right. by apply Hacc.
Qed.

Lemma failed_write_blocks_identifiers_witness :
  raw_jobs (load_raw_to_db first_write_fails []
              [Postings twice_a; Postings twice_a]) = [] ∧
  Forall (λ r, job_id r ∉ ids (accepted (ids []) twice_a))
    (raw_jobs (load_raw_to_db first_write_fails []
                 ([] ++ Postings twice_a :: [Postings twice_a]))).
Proof.
  split; [reflexivity|].
  exact (failed_write_blocks_identifiers first_write_fails [] [] twice_a
           [Postings twice_a] eq_refl).
Defined.

End LoaderExtra.

Module CleaningExtra.

Import Text TextProps Cleaning CleaningProps.

Lemma clean_empty_cell_kept v s :
  clean_empty_cell v = Some s → v = Some s ∧ is_empty_value s = false.
Proof.
  unfold clean_empty_cell. destruct v as [t|]; [|done].
  destruct (is_empty_value t) eqn:E; [done|]. by intros [= <-].
Qed.

Lemma clean_empty_cell_idemp v :
  clean_empty_cell (clean_empty_cell v) = clean_empty_cell v.
Proof.
  destruct (clean_empty_cell v) as [s|] eqn:E; [|done].
  apply clean_empty_cell_kept in E as [_ E]. simpl. by rewrite E.
Qed.

(** X7.  Canonicalization does nothing when run a second time, keeps
    the number of rows, and leaves no text cell that it would replace. *)
Theorem clean_empty_values_idempotent (df : frame) :
  clean_empty_values (clean_empty_values df) = clean_empty_values df ∧
  length (clean_empty_values df) = length df ∧
  ∀ r s, r ∈ clean_empty_values df → Some s ∈ text_cells r →
         is_empty_value s = false.
Proof.
  unfold clean_empty_values. split; [|split].
  - rewrite <- list_fmap_compose. apply list_fmap_ext. intros _ r _.
    unfold compose, clean_empty_row. cbn [job_id source title company location
      salary_text salary_min salary_max job_type posted_date search_query
      search_location scraped_at location_city location_state].
    by rewrite !clean_empty_cell_idemp.
  - apply length_fmap.
  - intros r s (r0 & -> & _)%list_elem_of_fmap Hs.
    unfold text_cells, clean_empty_row in Hs. cbn [job_id source title company
      location salary_text salary_min salary_max job_type posted_date
      search_query search_location scraped_at location_city location_state] in Hs.
    repeat (apply elem_of_cons in Hs as [Hs|Hs];
            [symmetry in Hs; by apply clean_empty_cell_kept in Hs as [_ ?]|]).
    inversion Hs.
Qed.

Lemma extract_type_category v c : extract_type v = Some c → c ∈ categories.
Proof.
  unfold extract_type. destruct v as [v|]; [|done].
  destruct (List.find _ clean_mappings) as [m|] eqn:E; [|done].
  intros [= <-]. apply find_some in E as [E _].
  apply list_elem_of_In in E. unfold categories.
  by apply list_elem_of_fmap_2.
Qed.

Lemma extract_type_fixes_categories c :
  c ∈ categories → extract_type (Some c) = Some c.
Proof.
  unfold categories, clean_mappings. simpl. intros H.
  repeat (apply elem_of_cons in H as [->|H]; [reflexivity|]).
  inversion H.
Qed.

(** X8.  After job-type extraction every job type is one of the five
    keys of [clean_mappings]; each key is mapped to itself, and the
    stage run a second time changes nothing. *)
Theorem extract_job_type_clean_idempotent (df : frame) :
  (∀ r c, r ∈ extract_job_type_clean df → job_type r = Some c → c ∈ categories) ∧
  (∀ c, c ∈ categories → extract_type (Some c) = Some c) ∧
  extract_job_type_clean (extract_job_type_clean df) = extract_job_type_clean df.
Proof.
  split; [|split].
  - intros r c (r0 & -> & _)%list_elem_of_fmap. apply extract_type_category.
  - apply extract_type_fixes_categories.
  - unfold extract_job_type_clean. rewrite <- list_fmap_compose.
    apply list_fmap_ext. intros _ r _. unfold compose, with_job_type.
    cbn [job_id source title company location salary_text salary_min salary_max
      job_type posted_date search_query search_location scraped_at location_city
      location_state].
    f_equal. destruct (extract_type (job_type r)) as [c|] eqn:E; [|done].
    apply extract_type_category in E. by apply extract_type_fixes_categories.
Qed.

Lemma split_comma_parts s :
  contains "," (split_comma s).1 = false ∧
  s = match (split_comma s).2 with
      | Some t => (split_comma s).1 +:+ comma +:+ t
      | None => (split_comma s).1
      end.
Proof.
  induction s as [|c s IH]; [done|]. cbn [split_comma].
  case_bool_decide as Hc.
  - subst c. done.
  - destruct (split_comma s) as [h t]. cbn [fst snd] in *.
    destruct IH as [IH1 IH2]. split.
    + rewrite contains_char_cons, IH1.
      by rewrite bool_decide_eq_false_2 by congruence.
    + destruct t; subst s; reflexivity.
Qed.

Lemma split_comma_found s :
  is_Some (split_comma s).2 ↔ contains "," s = true.
Proof.
  induction s as [|c s IH]; cbn [split_comma].
  - split; [by intros [? ?]|done].
  - rewrite contains_char_cons. case_bool_decide as Hc.
    + subst c. rewrite bool_decide_eq_true_2 by done. split; [done|eauto].
    + rewrite bool_decide_eq_false_2 by congruence.
      destruct (split_comma s) as [h t]. exact IH.
Qed.


Lemma lower_char_comma c :
  bool_decide (","%char = lower_char c) = bool_decide (","%char = c).
Proof. by destruct c as [[] [] [] [] [] [] [] []]. Qed.

Lemma contains_comma_lower s : contains "," (lower s) = contains "," s.
Proof.
  induction s as [|c s IH]; [done|].
  change (lower (String c s)) with (String (lower_char c) (lower s)).
  by rewrite !contains_char_cons, IH, lower_char_comma.
Qed.

Lemma is_empty_value_no_comma s :
  is_empty_value s = true → contains "," s = false.
Proof.
  unfold is_empty_value, matches_word_ci.
  rewrite !orb_true_iff, !bool_decide_eq_true.
  intros [[[H|[H|H]]|[H|H]]|[H|H]];
    try (rewrite <- contains_comma_lower, H; reflexivity).
  induction s as [|c s IH]; [done|].
  simpl in H. apply andb_true_iff in H as [Hc Hs].
  rewrite contains_char_cons, (IH Hs).
  rewrite bool_decide_eq_false_2; [done|]. by intros <-.
Qed.

Lemma clean_location_None (df : frame) : clean_location df = None ↔ no_comma df.
Proof.
  unfold clean_location, no_comma.
  destruct (existsb _ df) eqn:E.
  - split; [done|]. intros H. apply existsb_exists in E as (r & Hr & Hs).
    apply bool_decide_eq_true in Hs. unfold split_location in Hs.
    destruct (location r) as [s|] eqn:Hl; [|by destruct Hs].
    pose proof (split_comma_found s) as Hf.
    destruct (split_comma s) as [h t]. apply Hf in Hs.
    rewrite (H r s) in Hs; [done| |done]. by apply list_elem_of_In.
  - split; [intros _|done]. intros r s Hr Hl.
    destruct (contains "," s) eqn:Hc; [|done].
    assert (existsb (λ r, bool_decide (is_Some (split_location r).2)) df = true)
      as E'; [|congruence].
    apply existsb_exists. exists r. split; [by apply list_elem_of_In|].
    apply bool_decide_eq_true. unfold split_location. rewrite Hl.
    apply split_comma_found in Hc. by destruct (split_comma s).
Qed.

Lemma no_comma_clean_empty_values (raw : frame) :
  no_comma (clean_empty_values raw) ↔ no_comma raw.
Proof.
  unfold no_comma, clean_empty_values. split.
  - intros H r s Hr Hl.
    destruct (is_empty_value s) eqn:E; [by apply is_empty_value_no_comma|].
    apply (H (clean_empty_row r) s); [by apply list_elem_of_fmap_2|].
    simpl. rewrite Hl. simpl. by rewrite E.
  - intros H r s (r0 & -> & Hr0)%list_elem_of_fmap Hl. simpl in Hl.
    apply clean_empty_cell_kept in Hl as [Hl _]. by apply (H r0).
Qed.

(** X9.  [clean_location], [run_full_cleaning] and [clean_and_load]
    raise exactly when no location of the raw frame has a comma, empty
    values canonicalized or not; in particular on an empty table. *)
Theorem cleaning_fails_without_comma (sort_values : frame → frame) (raw : frame) :
  (clean_location raw = None ↔ no_comma raw) ∧
  (run_full_cleaning raw = None ↔ no_comma raw) ∧
  (clean_and_load sort_values raw = None ↔ no_comma raw) ∧
  clean_and_load sort_values [] = None.
Proof.
  assert (run_full_cleaning raw = None ↔ no_comma raw) as Hrun.
  { rewrite <- no_comma_clean_empty_values, <- clean_location_None.
    unfold run_full_cleaning.
    destruct (clean_location (clean_empty_values raw)); simpl; split; done. }
  split; [apply clean_location_None|]. split; [done|]. split; [|done].
  rewrite <- Hrun. unfold clean_and_load.
  destruct (run_full_cleaning raw); simpl; split; done.
Qed.

(** X10.  When [clean_location] returns, it keeps the rows and their
    order and writes [location_city] and [location_state] only; the city
    is the part of the location before its first comma: it has no comma,
    and the location is the city alone, or the city, a comma and a
    rest. *)
Theorem clean_location_splits_at_first_comma (df df' : frame) :
  clean_location df = Some df' →
  length df' = length df ∧
  ∀ i r, df !! i = Some r →
    ∃ r', df' !! i = Some r' ∧
      r' = with_location (location_city r') (location_state r') r ∧
      match location r with
      | None => location_city r' = None
      | Some s =>
          ∃ city, location_city r' = Some city ∧ contains "," city = false ∧
                  (s = city ∨ ∃ rest, s = city +:+ comma +:+ rest)
      end.
Proof.
  unfold clean_location. destruct (existsb _ df); [|done]. intros [= <-].
  split; [apply length_fmap|]. intros i r Hi.
  exists (clean_location_row r). rewrite list_lookup_fmap, Hi.
  split; [done|]. unfold clean_location_row, split_location.
  destruct (location r) as [s|] eqn:Hl.
  - pose proof (split_comma_parts s) as [H1 H2].
    destruct (split_comma s) as [h t]. cbn [fst snd] in *.
    cbv beta iota zeta. cbn [location_city location_state with_location].
    split; [done|]. exists h. split; [done|]. split; [done|].
    destruct t as [t|]; [right; by exists t|by left].
  - cbv beta iota zeta. cbn [location_city location_state with_location]. done.
Qed.

Lemma clean_location_splits_at_first_comma_witness :
  length (clean_location_row <$> sample_locations) = length sample_locations.
Proof.
  exact (proj1 (clean_location_splits_at_first_comma sample_locations
                  (clean_location_row <$> sample_locations) eq_refl)).
Defined.



Local Open Scope Qc_scope.

Lemma scaled_one r : scaled 1 r = r.
Proof.
  unfold scaled, times, with_salary. destruct r as [? ? ? ? ? ? mn mx ? ? ? ? ? ? ?].
  simpl. f_equal.
  - destruct mn; simpl; [|done]. by rewrite Qcmult_1_r.
  - destruct mx; simpl; [|done]. by rewrite Qcmult_1_r.
Qed.

Lemma scaled_scaled k1 k2 r : scaled k2 (scaled k1 r) = scaled (k1 * k2) r.
Proof.
  unfold scaled, times, with_salary. simpl. f_equal.
  - destruct (salary_min r); simpl; [|done]. by rewrite Qcmult_assoc.
  - destruct (salary_max r); simpl; [|done]. by rewrite Qcmult_assoc.
Qed.

Lemma rule_cases cues bound factor r :
  rule cues bound factor r = r ∨
  ∃ mn, salary_min r = Some mn ∧ mn < Qc_of_Z bound ∧
        rule cues bound factor r = scaled (Qc_of_Z factor) r.
Proof.
  unfold rule. destruct (salary_text r) as [text|]; [|by left].
  destruct (salary_min r) as [mn|] eqn:Hmn; [|by left].
  destruct (existsb _ cues); simpl; [|by left].
  case_bool_decide as Hlt; [|by left].
  right. exists mn. split; [done|]. split; [done|].
  unfold scaled, times. by rewrite Hmn.
Qed.

Lemma Qc_one_le_of_Z (n : Z) : (1 ≤ n)%Z → 1 ≤ Qc_of_Z n.
Proof. intros H. rewrite <- Z2Qc_inj_1. by apply (proj1 (Z2Qc_inj_le 1 n)). Qed.

Lemma Qc_one_le_mult a b : 1 ≤ a → 1 ≤ b → 1 ≤ a * b.
Proof.
  intros Ha Hb. trans (1 * b); [by rewrite Qcmult_1_l|].
  apply Qcmult_le_mono_nonneg_r; [|done]. by trans 1.
Qed.

Lemma rule_scales cues bound factor r :
  (1 ≤ factor)%Z →
  ∃ k, 1 ≤ k ∧ rule cues bound factor r = scaled k r.
Proof.
  intros Hf. destruct (rule_cases cues bound factor r) as [H|(mn & _ & _ & H)].
  - exists 1. by rewrite scaled_one.
  - exists (Qc_of_Z factor). split; [by apply Qc_one_le_of_Z|done].
Qed.

Lemma correct_row_scales r r' :
  correct_row r = Some r' → ∃ k, 1 ≤ k ∧ r' = scaled k r.
Proof.
  unfold correct_row.
  destruct (rule_scales ["k"] 1000 1000 r) as (k1 & H1 & ->); [done|].
  destruct (rule_scales ["per hour"; "/hour"; "an hour"] 200 2080 (scaled k1 r))
    as (k2 & H2 & ->); [done|].
  destruct (rule_scales ["per month"; "/month"; "a month"] 20000 12
              (scaled k2 (scaled k1 r))) as (k3 & H3 & ->); [done|].
  destruct (rule_scales ["per week"; "/week"; "a week"] 5000 52
              (scaled k3 (scaled k2 (scaled k1 r)))) as (k4 & H4 & ->); [done|].
  rewrite !scaled_scaled.
  set (k := k1 * (k2 * (k3 * k4))).
  intros H. exists k. split.
  - unfold k. auto using Qc_one_le_mult.
  - destruct (salary_text (scaled k r)) as [text|]; [|by injection H].
    destruct (contains "per unit" (lower text)); [done|by injection H].
Qed.

Lemma elem_of_correct_salary_units (df : frame) r' :
  r' ∈ correct_salary_units df ↔ ∃ r, r ∈ df ∧ correct_row r = Some r'.
Proof.
  induction df as [|x df IH].
  - split; [intros H; inversion H|intros (r & H & _); inversion H].
  - rewrite correct_salary_units_cons.
    destruct (correct_row x) as [x'|] eqn:E.
    + rewrite elem_of_cons, IH. split.
      * intros [->|(r & Hr & Hrow)]; [exists x|exists r]; split; try done;
          [left|by right].
      * intros (r & [->|Hr]%elem_of_cons & Hrow); [left; congruence|right; eauto].
    + rewrite IH. split.
      * intros (r & Hr & Hrow). exists r. split; [by right|done].
      * intros (r & [->|Hr]%elem_of_cons & Hrow); [congruence|eauto].
Qed.

(** X12.  The salary corrector adds no row, and each row it returns is a
    row it was given with both salary bounds multiplied by one factor,
    which is at least 1; nothing else of the row changes. *)
Theorem corrector_scales_both_bounds (df : frame) :
  (length (correct_salary_units df) ≤ length df)%nat ∧
  ∀ r', r' ∈ correct_salary_units df →
    ∃ r k, r ∈ df ∧ 1 ≤ k ∧ r' = scaled k r.
Proof.
  split.
  - induction df as [|x df IH]; [done|].
    rewrite correct_salary_units_cons. destruct (correct_row x); simpl; lia.
  - intros r' (r & Hr & Hrow)%elem_of_correct_salary_units.
    destruct (correct_row_scales r r' Hrow) as (k & Hk & ->). eauto.
Qed.

(** X13.  Every row the corrector returns comes from a row with the same
    bounds present; bounds that were in order stay in order, and a
    minimum that is not negative is not lowered. *)
Theorem corrector_keeps_order (df : frame) (r' : posting) :
  r' ∈ correct_salary_units df →
  ∃ r, r ∈ df ∧
    (is_Some (salary_min r') ↔ is_Some (salary_min r)) ∧
    (is_Some (salary_max r') ↔ is_Some (salary_max r)) ∧
    (∀ mn mx, salary_min r = Some mn → salary_max r = Some mx → mn ≤ mx →
       ∃ mn' mx', salary_min r' = Some mn' ∧ salary_max r' = Some mx' ∧
                  mn' ≤ mx') ∧
    (∀ mn, salary_min r = Some mn → 0 ≤ mn →
       ∃ mn', salary_min r' = Some mn' ∧ mn ≤ mn').
Proof.
  intros (r & Hr & Hrow)%elem_of_correct_salary_units.
  destruct (correct_row_scales r r' Hrow) as (k & Hk & ->).
  exists r. split; [done|]. unfold scaled, times. simpl.
  assert (0 ≤ k) as Hk0 by (by trans 1).
  split; [by rewrite fmap_is_Some|]. split; [by rewrite fmap_is_Some|]. split.
  - intros mn mx -> -> Hle. exists (mn * k), (mx * k).
    split; [done|]. split; [done|]. by apply Qcmult_le_mono_nonneg_r.
  - intros mn -> Hmn. exists (mn * k). split; [done|].
    trans (mn * 1); [by rewrite Qcmult_1_r|].
    by apply Qcmult_le_mono_nonneg_l.
Qed.

Lemma corrector_keeps_order_witness :
  ∃ r, r ∈ [sample_hourly] ∧
       (is_Some (salary_min (scaled (Qc_of_Z 2080) sample_hourly))
        ↔ is_Some (salary_min r)).
Proof.
  destruct (corrector_keeps_order [sample_hourly]
              (scaled (Qc_of_Z 2080) sample_hourly)) as (r & Hr & H & _).
  - assert (correct_salary_units [sample_hourly]
            = [scaled (Qc_of_Z 2080) sample_hourly]) as -> by reflexivity.
    left.
  - by exists r.
Defined.

Lemma rule_idemp cues bound factor r :
  (∀ mn, salary_min r = Some mn → Qc_of_Z bound ≤ mn * Qc_of_Z factor) →
  rule cues bound factor (rule cues bound factor r) = rule cues bound factor r.
Proof.
  intros H. destruct (rule_cases cues bound factor r) as [E|(mn & Hmn & _ & E)];
    rewrite E; [done|].
  destruct (rule_cases cues bound factor (scaled (Qc_of_Z factor) r))
    as [E'|(mn' & Hmn' & Hlt & _)]; [done|].
  unfold scaled, times in Hmn'. simpl in Hmn'. rewrite Hmn in Hmn'.
  injection Hmn' as <-. destruct (Qcle_not_lt _ _ (H mn Hmn) Hlt).
Qed.

Lemma fix_stage_idemp cues bound factor (df : frame) :
  scaled_past bound factor df →
  rule cues bound factor <$> (rule cues bound factor <$> df)
  = rule cues bound factor <$> df.
Proof.
  intros H. rewrite <- list_fmap_compose. apply list_fmap_ext.
  intros i r Hr. apply rule_idemp. intros mn. apply H.
  apply list_elem_of_lookup. eauto.
Qed.

Lemma fix_stages_are_rules (df : frame) :
  fix_k_notation df = rule ["k"] 1000 1000 <$> df ∧
  fix_hourly_wages df = rule ["per hour"; "/hour"; "an hour"] 200 2080 <$> df ∧
  fix_monthly_wages df = rule ["per month"; "/month"; "a month"] 20000 12 <$> df ∧
  fix_weekly_wages df = rule ["per week"; "/week"; "a week"] 5000 52 <$> df.
Proof.
  unfold fix_k_notation, fix_hourly_wages, fix_monthly_wages, fix_weekly_wages.
  repeat split; apply list_fmap_ext; intros _ r _; apply rule_eq_code.
Qed.

(** X14.  Each rescaling stage run a second time changes nothing,
    provided every minimum, once multiplied by the factor of the stage,
    reaches its threshold (1000, 200, 20000 and 5000 for the factors
    1000, 2080, 12 and 52). *)
Theorem rescaling_stages_guard_against_repeats (df : frame) :
  (scaled_past 1000 1000 df → fix_k_notation (fix_k_notation df) = fix_k_notation df) ∧
  (scaled_past 200 2080 df →
   fix_hourly_wages (fix_hourly_wages df) = fix_hourly_wages df) ∧
  (scaled_past 20000 12 df →
   fix_monthly_wages (fix_monthly_wages df) = fix_monthly_wages df) ∧
  (scaled_past 5000 52 df →
   fix_weekly_wages (fix_weekly_wages df) = fix_weekly_wages df).
Proof.
  repeat split; intros H.
  - destruct (fix_stages_are_rules df) as (E & _). rewrite E.
    destruct (fix_stages_are_rules (rule ["k"] 1000 1000 <$> df)) as (-> & _).
    by apply fix_stage_idemp.
  - destruct (fix_stages_are_rules df) as (_ & E & _). rewrite E.
    destruct (fix_stages_are_rules
                (rule ["per hour"; "/hour"; "an hour"] 200 2080 <$> df))
      as (_ & -> & _).
    by apply fix_stage_idemp.
  - destruct (fix_stages_are_rules df) as (_ & _ & E & _). rewrite E.
    destruct (fix_stages_are_rules
                (rule ["per month"; "/month"; "a month"] 20000 12 <$> df))
      as (_ & _ & -> & _).
    by apply fix_stage_idemp.
  - destruct (fix_stages_are_rules df) as (_ & _ & _ & E). rewrite E.
    destruct (fix_stages_are_rules
                (rule ["per week"; "/week"; "a week"] 5000 52 <$> df))
      as (_ & _ & _ & ->).
    by apply fix_stage_idemp.
Qed.

Lemma rescaling_stages_guard_against_repeats_witness :
  fix_k_notation (fix_k_notation [sample_k]) = fix_k_notation [sample_k].
Proof.
  destruct (rescaling_stages_guard_against_repeats [sample_k]) as (H & _).
  apply H. intros r mn [->|Hr]%elem_of_cons; [|inversion Hr].
  intros [= <-]. rewrite <- Z2Qc_inj_mul. by apply (proj1 (Z2Qc_inj_le _ _)).
Defined.

Lemma with_salary_max_same r : with_salary_max (salary_max r) r = r.
Proof. by destruct r. Qed.

Lemma impute_row_max_only spreads r :
  impute_row spreads r = with_salary_max (salary_max (impute_row spreads r)) r.
Proof.
  unfold impute_row, fill_max.
  destruct (source r); [|by rewrite with_salary_max_same].
  destruct (only_min r); [|by rewrite with_salary_max_same].
  by destruct (decide _).
Qed.

Lemma impute_row_unchanged spreads r :
  salary_max r ≠ None ∨ salary_min r = None → impute_row spreads r = r.
Proof.
  intros H. unfold impute_row. destruct (source r); [|done].
  assert (only_min r = false) as ->; [|done].
  unfold only_min. destruct H as [H| ->].
  - by rewrite (bool_decide_eq_false_2 (salary_max r = None)), andb_false_r.
  - rewrite bool_decide_eq_false_2; [done|]. by intros [? ?].
Qed.

Lemma impute_row_settled spreads r :
  only_min (impute_row spreads r) = true →
  source r = None ∧ impute_row spreads r = r.
Proof.
  unfold impute_row. destruct (source r) as [s|]; [|done].
  destruct (only_min r) eqn:Hm; [|by rewrite Hm].
  unfold only_min in Hm |- *. apply andb_true_iff in Hm as [Hm _].
  apply bool_decide_eq_true in Hm as [mn Hmn].
  unfold fill_max. destruct (decide _); simpl; rewrite Hmn; simpl;
    rewrite ?andb_false_r; done.
Qed.

Lemma impute_row_idemp spreads spreads' r :
  impute_row spreads' (impute_row spreads r) = impute_row spreads r.
Proof.
  destruct (only_min (impute_row spreads r)) eqn:Hm.
  - apply impute_row_settled in Hm as [Hs ->].
    unfold impute_row. by rewrite Hs.
  - unfold impute_row at 1. rewrite Hm. by destruct (source _).
Qed.

(** X15.  The imputer keeps the rows and their order, writes no column
    but [salary_max], and leaves unchanged every row that has a maximum
    or has no minimum. *)
Theorem imputer_changes_only_missing_max (df : frame) :
  length (impute_missing_max_by_source df) = length df ∧
  ∀ i r, df !! i = Some r →
    ∃ r', impute_missing_max_by_source df !! i = Some r' ∧
      r' = with_salary_max (salary_max r') r ∧
      (salary_max r ≠ None ∨ salary_min r = None → r' = r).
Proof.
  rewrite impute_rows. split; [apply length_fmap|].
  intros i r Hi. exists (impute_row (median_spreads df) r).
  rewrite list_lookup_fmap, Hi. split; [done|].
  split; [apply impute_row_max_only|apply impute_row_unchanged].
Qed.

(** X16.  Imputing a second time changes nothing. *)
Theorem imputer_is_idempotent (df : frame) :
  impute_missing_max_by_source (impute_missing_max_by_source df)
  = impute_missing_max_by_source df.
Proof.
  rewrite (impute_rows (impute_missing_max_by_source df)).
  rewrite (impute_rows df) at 2 3.
  rewrite <- list_fmap_compose. apply list_fmap_ext. intros _ r _.
  apply impute_row_idemp.
Qed.

Lemma median_Permutation l1 l2 : l1 ≡ₚ l2 → median l1 = median l2.
Proof.
  intros H. unfold median.
  assert (merge_sort Qcle l1 = merge_sort Qcle l2) as ->; [|done].
  apply (Sorted_unique Qcle); try apply Sorted_merge_sort; try apply _.
  by rewrite !merge_sort_Permutation.
Qed.

Lemma median_spreads_Permutation (df df' : frame) :
  df ≡ₚ df' → median_spreads df = median_spreads df'.
Proof.
  intros H. apply map_eq. intros s. rewrite !median_spreads_lookup.
  apply median_Permutation. unfold group_spreads. by rewrite H.
Qed.

(** X17.  The imputer does not depend on the order of the rows: of a
    reordered frame it returns the same rows, reordered. *)
Theorem imputer_commutes_with_reordering (df df' : frame) :
  df ≡ₚ df' →
  impute_missing_max_by_source df ≡ₚ impute_missing_max_by_source df'.
Proof.
  intros H. rewrite !impute_rows, (median_spreads_Permutation df df' H).
  by rewrite H.
Qed.

Lemma imputer_commutes_with_reordering_witness :
  impute_missing_max_by_source sample_spreads
  ≡ₚ impute_missing_max_by_source (reverse sample_spreads).
Proof.
  apply imputer_commutes_with_reordering. symmetry. apply reverse_Permutation.
Defined.

Lemma half_nonneg x : 0 ≤ x → 0 ≤ x / Qc_of_Z 2.
Proof.
  intros H. unfold Qcdiv. trans (0 * / Qc_of_Z 2); [by rewrite Qcmult_0_l|].
  apply Qcmult_le_mono_nonneg_r; [|done]. apply Qcle_alt. by vm_compute.
Qed.

Lemma median_nonneg l m : Forall (λ x, 0 ≤ x) l → median l = Some m → 0 ≤ m.
Proof.
  intros Hl. unfold median.
  assert (Forall (λ x, 0 ≤ x) (merge_sort Qcle l)) as Hs.
  { by rewrite merge_sort_Permutation. }
  set (s := merge_sort Qcle l) in *. clearbody s. clear l Hl.
  rewrite Forall_lookup in Hs.
  destruct (Nat.even (length s)).
  - destruct (s !! (length s / 2 - 1)%nat) as [a|] eqn:Ha; [|done].
    destruct (s !! (length s / 2)%nat) as [b|] eqn:Hb; [|done].
    simpl. intros [= <-]. apply half_nonneg.
    trans (0 + b); [rewrite Qcplus_0_l; eauto|].
    apply Qcplus_le_mono_r. eauto.
  - intros H. eauto.
Qed.

Lemma group_spreads_nonneg (df : frame) s :
  (∀ r, r ∈ df → ordered r) → Forall (λ x, 0 ≤ x) (group_spreads df s).
Proof.
  intros H. apply Forall_forall. intros x.
  unfold group_spreads. intros (r & [_ Hr]%list_elem_of_filter & Hx)%list_elem_of_omap.
  unfold spread_of in Hx.
  destruct (salary_min r) as [mn|] eqn:Hmn; [|done].
  destruct (salary_max r) as [mx|] eqn:Hmx; [|done].
  injection Hx as <-. apply (proj1 (Qcle_minus_iff mn mx)). by apply (H r Hr).
Qed.

(** X18.  When the bounds of every row are in order, so are the bounds
    of every row after imputation. *)
Theorem imputer_keeps_order (df : frame) :
  (∀ r, r ∈ df → ordered r) →
  ∀ r', r' ∈ impute_missing_max_by_source df → ordered r'.
Proof.
  intros Hdf r'. rewrite impute_rows.
  intros (r & -> & Hr)%list_elem_of_fmap.
  unfold impute_row. destruct (source r) as [s|]; [|by apply Hdf].
  destruct (only_min r) eqn:Hm; [|by apply Hdf].
  assert (0 ≤ default (Qc_of_Z 10000) (median_spreads df !! s)) as Hspread.
  { rewrite median_spreads_lookup.
    destruct (median (group_spreads df s)) as [m|] eqn:E; simpl.
    - eapply median_nonneg; [|exact E]. by apply group_spreads_nonneg.
    - apply Qcle_alt. by vm_compute. }
  set (spread := default _ _) in *. clearbody spread.
  unfold fill_max, ordered. destruct (decide _); simpl; intros mn mx Hmn.
  - rewrite Hmn. intros [= <-]. reflexivity.
  - rewrite Hmn. simpl. intros [= <-].
    trans (mn + 0); [by rewrite Qcplus_0_r|]. by apply Qcplus_le_mono_l.
Qed.

Lemma imputer_keeps_order_witness :
  Forall ordered (impute_missing_max_by_source sample_spreads).
Proof.
  apply Forall_forall. apply imputer_keeps_order.
  intros r Hr mn mx. unfold sample_spreads in Hr.
  apply elem_of_cons in Hr as [->|Hr]; [|apply elem_of_cons in Hr as [->|Hr]].
  - intros [= <-] [= <-]. by apply (proj1 (Z2Qc_inj_le _ _)).
  - done.
  - inversion Hr.
Defined.

Local Close Scope Qc_scope.

Lemma salary_variant_with_salary base r mn mx :
  salary_variant base r → salary_variant base (with_salary mn mx r).
Proof. unfold salary_variant. intros ->. reflexivity. Qed.

Lemma salary_variant_refl r : salary_variant r r.
Proof. unfold salary_variant. by destruct r. Qed.

Lemma impute_row_variant spreads base r :
  salary_variant base r → salary_variant base (impute_row spreads r).
Proof.
  intros H. rewrite impute_row_max_only. by apply salary_variant_with_salary.
Qed.

Lemma length_correct_salary_units (df : frame) :
  length (correct_salary_units df) ≤ length df.
Proof.
  induction df as [|x df IH]; [done|].
  rewrite correct_salary_units_cons. destruct (correct_row x); simpl; lia.
Qed.

(** The frame that reaches the deduplication, row by row. *)
Lemma run_full_cleaning_rows (raw survivors : frame) :
  run_full_cleaning raw = Some survivors →
  length survivors ≤ length raw ∧
  ∀ r', r' ∈ survivors → ∃ r, r ∈ raw ∧ salary_variant (normalized r) r'.
Proof.
  unfold run_full_cleaning.
  destruct (clean_location (clean_empty_values raw)) as [df|] eqn:Hloc; [|done].
  simpl. intros [= <-]. rewrite drop_muse_filter.
  unfold clean_location in Hloc. destruct (existsb _ _); [|done].
  injection Hloc as <-.
  change (drop_per_unit_wages (fix_weekly_wages (fix_monthly_wages
            (fix_hourly_wages (fix_k_notation ?x)))))
    with (correct_salary_units x).
  set (df3 := extract_job_type_clean _).
  assert (df3 = normalized <$> raw) as Hdf3.
  { unfold df3, extract_job_type_clean, clean_empty_values.
    by rewrite <- !list_fmap_compose. }
  split.
  - etrans; [apply length_filter|]. etrans; [apply length_filter|].
    rewrite impute_rows, length_fmap.
    etrans; [apply length_correct_salary_units|].
    by rewrite Hdf3, length_fmap.
  - intros r' [_ [_ Hr']%list_elem_of_filter]%list_elem_of_filter.
    rewrite impute_rows in Hr'.
    apply list_elem_of_fmap in Hr' as (r4 & -> & Hr4).
    apply elem_of_correct_salary_units in Hr4 as (r3 & Hr3 & Hrow).
    apply correct_row_scales in Hrow as (k & _ & ->).
    rewrite Hdf3 in Hr3. apply list_elem_of_fmap in Hr3 as (r & -> & Hr).
    exists r. split; [done|]. apply impute_row_variant.
    apply salary_variant_with_salary, salary_variant_refl.
Qed.

Section Published.

Variable sort_values : frame → frame.
Hypothesis sort_values_perm : ∀ df, sort_values df ≡ₚ df.

(** X19.  [clean_and_load] publishes no more rows than the raw table
    has, and every published row is a raw row after the field normalizer
    (canonicalization, location, job type) with at most its salary
    bounds different. *)
Theorem published_rows_come_from_raw_rows (raw published : frame) :
  clean_and_load sort_values raw = Some published →
  length published ≤ length raw ∧
  ∀ r', r' ∈ published → ∃ r, r ∈ raw ∧ salary_variant (normalized r) r'.
Proof.
  unfold clean_and_load.
  destruct (run_full_cleaning raw) as [survivors|] eqn:Hrun; [|done].
  simpl. intros [= <-].
  destruct (run_full_cleaning_rows _ _ Hrun) as [Hlen Hrows].
  pose proof (drop_duplicates_from_sublist ∅ (sort_values survivors)) as Hsub.
  fold (drop_duplicates (sort_values survivors)) in Hsub. split.
  - etrans; [by apply sublist_length|].
    by rewrite (Permutation_length (sort_values_perm survivors)).
  - intros r' Hr'. apply Hrows. rewrite <- (sort_values_perm survivors).
    by eapply elem_of_sublist.
Qed.

(** X20.  On the row counts that [clean_and_load] leaves, with the
    required columns present, [verify_cleaned_data] succeeds unless the
    cleaned table is empty; it never finds more cleaned than raw rows. *)
Theorem verification_after_cleaning (raw published : frame) (columns : list string) :
  clean_and_load sort_values raw = Some published →
  required_columns ⊆ columns →
  verify_cleaned_data (length raw) (length published) columns
  = match published with [] => EmptyCleanedTable | _ => Verified end.
Proof.
  intros Hload Hcols.
  assert (length published ≤ length raw) as Hlen.
  { unfold clean_and_load in Hload.
    destruct (run_full_cleaning raw) as [survivors|] eqn:Hrun; [|done].
    injection Hload as <-.
    destruct (run_full_cleaning_rows _ _ Hrun) as [Hlen _].
    etrans; [apply sublist_length, drop_duplicates_from_sublist|].
    by rewrite (Permutation_length (sort_values_perm survivors)). }
  unfold verify_cleaned_data. destruct published as [|r published]; [done|].
  rewrite bool_decide_eq_false_2 by done.
  rewrite bool_decide_eq_false_2 by lia.
  assert (filter (λ col, col ∉ columns) required_columns = []) as ->; [|done].
  induction required_columns as [|c cs IH]; [done|].
  rewrite filter_cons, decide_False.
  - apply IH. intros x Hx. apply Hcols. by right.
  - intros Hn. apply Hn, Hcols. left.
Qed.

End Published.

Lemma published_rows_come_from_raw_rows_witness :
  length sample_published ≤ length sample_raw.
Proof.
  exact (proj1 (published_rows_come_from_raw_rows sort_values_merge
                  sort_values_merge_perm sample_raw sample_published eq_refl)).
Defined.

Lemma verification_after_cleaning_witness :
  verify_cleaned_data (length sample_raw) (length sample_published)
    required_columns = Verified.
Proof.
  exact (verification_after_cleaning sort_values_merge sort_values_merge_perm
           sample_raw sample_published required_columns eq_refl
           (λ x H, H)).
Defined.

Lemma sooner_first_antisym a b :
  sooner_first a b → sooner_first b a → scraped_at a = scraped_at b.
Proof.
  unfold sooner_first. destruct (scraped_at a), (scraped_at b); try done.
  intros. f_equal. lia.
Qed.

Lemma NoDup_fmap_eq {A B} (f : A → B) (l : list A) x y :
  NoDup (f <$> l) → x ∈ l → y ∈ l → f x = f y → x = y.
Proof.
  induction l as [|z l IH]; [by intros _ H; inversion H|].
  rewrite fmap_cons, NoDup_cons, !elem_of_cons.
  intros [Hz Hl] [->|Hx] [->|Hy] E; try done.
  - destruct Hz. rewrite E. by apply list_elem_of_fmap_2.
  - destruct Hz. rewrite <- E. by apply list_elem_of_fmap_2.
  - by apply IH.
Qed.

Lemma stamps_of_published sort1 sort2 (survivors : frame) :
  (∀ df, sort1 df ≡ₚ df) → (∀ df, Sorted sooner_first (sort1 df)) →
  (∀ df, sort2 df ≡ₚ df) → (∀ df, Sorted sooner_first (sort2 df)) →
  ∀ x, x ∈ stamps (drop_duplicates (sort1 survivors)) →
       x ∈ stamps (drop_duplicates (sort2 survivors)).
Proof.
  intros Hp1 Hs1 Hp2 Hs2 x (r1 & -> & Hr1)%list_elem_of_fmap.
  assert (r1 ∈ sort2 survivors) as Hin2.
  { rewrite Hp2, <- (Hp1 survivors).
    eapply elem_of_sublist; [exact Hr1|apply drop_duplicates_from_sublist]. }
  destruct (drop_duplicates_keeps_first_of_sorted _ _ (Hs2 survivors) Hin2)
    as (k & Hk & Hid & Hk1).
  assert (k ∈ sort1 survivors) as Hin1.
  { rewrite Hp1, <- (Hp2 survivors).
    eapply elem_of_sublist; [exact Hk|apply drop_duplicates_from_sublist]. }
  destruct (drop_duplicates_keeps_first_of_sorted _ _ (Hs1 survivors) Hin1)
    as (k1 & Hk1in & Hid1 & Hk1k).
  assert (k1 = r1) as ->.
  { eapply (NoDup_fmap_eq job_id); [apply NoDup_drop_duplicates_from|done..|].
    congruence. }
  apply list_elem_of_fmap. exists k. split; [|done].
  by rewrite Hid, (sooner_first_antisym _ _ Hk1 Hk1k).
Qed.

(** X21.  Whatever order the sort gives to rows of equal time, the
    published identifiers are the same, each with the same time. *)
Theorem publication_independent_of_tie_order
    (sort1 sort2 : frame → frame) (raw published1 published2 : frame) :
  (∀ df, sort1 df ≡ₚ df) → (∀ df, Sorted sooner_first (sort1 df)) →
  (∀ df, sort2 df ≡ₚ df) → (∀ df, Sorted sooner_first (sort2 df)) →
  clean_and_load sort1 raw = Some published1 →
  clean_and_load sort2 raw = Some published2 →
  stamps published1 ≡ₚ stamps published2.
Proof.
  intros Hp1 Hs1 Hp2 Hs2. unfold clean_and_load.
  destruct (run_full_cleaning raw) as [survivors|]; [|done].
  simpl. intros [= <-] [= <-].
  assert (∀ df : frame, NoDup (job_id <$> df) → NoDup (stamps df)) as Hnd.
  { intros df H. apply (NoDup_fmap_1 fst). unfold stamps.
    by rewrite <- list_fmap_compose. }
  apply NoDup_Permutation; try apply Hnd, NoDup_drop_duplicates_from.
  intros x. split; by apply stamps_of_published.
Qed.

Lemma sort_values_backwards_perm (df : frame) : sort_values_backwards df ≡ₚ df.
Proof.
  unfold sort_values_backwards. by rewrite merge_sort_Permutation, reverse_Permutation.
Qed.

Lemma sort_values_backwards_sorted (df : frame) :
  Sorted sooner_first (sort_values_backwards df).
Proof. apply Sorted_merge_sort, sooner_first_total. Qed.

Lemma publication_independent_of_tie_order_witness :
  stamps (default [] (clean_and_load sort_values_merge sample_ties))
  ≡ₚ stamps (default [] (clean_and_load sort_values_backwards sample_ties)).
Proof.
  exact (publication_independent_of_tie_order sort_values_merge
           sort_values_backwards sample_ties _ _
           sort_values_merge_perm sort_values_merge_sorted
           sort_values_backwards_perm sort_values_backwards_sorted
           eq_refl eq_refl).
Defined.

Lemma lower_upper_char c : lower_char (upper_char c) = lower_char c.
Proof. by destruct c as [[] [] [] [] [] [] [] []]. Qed.

Lemma lower_lower_char c : lower_char (lower_char c) = lower_char c.
Proof. by destruct c as [[] [] [] [] [] [] [] []]. Qed.

Lemma upper_lower_char c : upper_char (lower_char c) = upper_char c.
Proof. by destruct c as [[] [] [] [] [] [] [] []]. Qed.

Lemma is_space_lower_char c : is_space (lower_char c) = is_space c.
Proof. by destruct c as [[] [] [] [] [] [] [] []]. Qed.

Lemma map_chars_compose f g s :
  map_chars f (map_chars g s) = map_chars (f ∘ g) s.
Proof. induction s as [|c s IH]; simpl; [done|]. by rewrite IH. Qed.

Lemma map_chars_ext f g s : (∀ c, f c = g c) → map_chars f s = map_chars g s.
Proof. intros H. induction s as [|c s IH]; simpl; [done|]. by rewrite H, IH. Qed.

Lemma lower_upper s : lower (upper s) = lower s.
Proof.
  unfold lower, upper. rewrite map_chars_compose.
  apply map_chars_ext, lower_upper_char.
Qed.

Lemma lower_lower s : lower (lower s) = lower s.
Proof.
  unfold lower. rewrite map_chars_compose.
  apply map_chars_ext, lower_lower_char.
Qed.

Lemma upper_lower s : upper (lower s) = upper s.
Proof.
  unfold lower, upper. rewrite map_chars_compose.
  apply map_chars_ext, upper_lower_char.
Qed.

Lemma lstrip_lower s : lstrip (lower s) = lower (lstrip s).
Proof.
  induction s as [|c s IH]; [done|].
  change (lower (String c s)) with (String (lower_char c) (lower s)).
  cbn [lstrip]. rewrite is_space_lower_char. by destruct (is_space c).
Qed.

Lemma rstrip_lower s : rstrip (lower s) = lower (rstrip s).
Proof.
  induction s as [|c s IH]; [done|].
  change (lower (String c s)) with (String (lower_char c) (lower s)).
  cbn [rstrip]. rewrite IH, is_space_lower_char.
  destruct (rstrip s); [by destruct (is_space c)|done].
Qed.

Lemma strip_lower s : strip (lower s) = lower (strip s).
Proof. unfold strip. by rewrite lstrip_lower, rstrip_lower. Qed.

(** X22.  Letter case does not matter to the matchers: the job type
    found in a text and the salary cues found in a salary text are the
    same for the text in upper and in lower case, and the state code of
    a text in lower case is that of the text. *)
Theorem letter_case_is_ignored :
  (∀ v, extract_type (Some (upper v)) = extract_type (Some v) ∧
        extract_type (Some (lower v)) = extract_type (Some v)) ∧
  (∀ ps s, str_contains ps (Some (upper s)) = str_contains ps (Some s) ∧
           str_contains ps (Some (lower s)) = str_contains ps (Some s)) ∧
  (∀ s, as_state_code (Some (lower s)) = as_state_code (Some s)).
Proof.
  split; [|split].
  - intros v. unfold extract_type. by rewrite lower_upper, lower_lower.
  - intros ps s. unfold str_contains, contains_any_ci.
    by rewrite lower_upper, lower_lower.
  - intros s. rewrite !as_state_code_Some. by rewrite strip_lower, upper_lower.
Qed.

Lemma correct_row_job_id r r' : correct_row r = Some r' → job_id r' = job_id r.
Proof. by intros (k & _ & ->)%correct_row_scales. Qed.

Lemma job_ids_correct_salary_units (df : frame) :
  job_id <$> correct_salary_units df `sublist_of` job_id <$> df.
Proof.
  induction df as [|x df IH]; [done|].
  rewrite correct_salary_units_cons, fmap_cons.
  destruct (correct_row x) as [x'|] eqn:E.
  - rewrite fmap_cons, (correct_row_job_id _ _ E). by apply sublist_skip.
  - by apply sublist_cons.
Qed.

Lemma job_ids_filter (P : posting → Prop) `{∀ r, Decision (P r)} (df : frame) :
  job_id <$> filter P df `sublist_of` job_id <$> df.
Proof. apply fmap_sublist, sublist_filter. Qed.

Lemma impute_row_job_id spreads r : job_id (impute_row spreads r) = job_id r.
Proof. by rewrite impute_row_max_only. Qed.

Lemma clean_location_row_job_id r : job_id (clean_location_row r) = job_id r.
Proof. unfold clean_location_row. by destruct (split_location r). Qed.

Lemma job_ids_run_full_cleaning (raw survivors : frame) :
  run_full_cleaning raw = Some survivors →
  job_id <$> survivors `sublist_of` (clean_empty_cell ∘ job_id) <$> raw.
Proof.
  unfold run_full_cleaning.
  destruct (clean_location (clean_empty_values raw)) as [df|] eqn:Hloc; [|done].
  simpl. intros [= <-]. rewrite drop_muse_filter.
  unfold clean_location in Hloc. destruct (existsb _ _); [|done].
  injection Hloc as <-.
  change (drop_per_unit_wages (fix_weekly_wages (fix_monthly_wages
            (fix_hourly_wages (fix_k_notation ?x)))))
    with (correct_salary_units x).
  etrans; [apply job_ids_filter|]. etrans; [apply job_ids_filter|].
  rewrite impute_rows, <- list_fmap_compose.
  rewrite (list_fmap_ext (job_id ∘ impute_row _) job_id)
    by (intros; apply impute_row_job_id).
  etrans; [apply job_ids_correct_salary_units|].
  unfold extract_job_type_clean, clean_empty_values.
  rewrite <- !list_fmap_compose.
  rewrite (list_fmap_ext _ (clean_empty_cell ∘ job_id) raw); [done|].
  intros _ r _. unfold compose. cbn [with_job_type job_id].
  by rewrite clean_location_row_job_id.
Qed.

Lemma drop_duplicates_from_distinct seen (df : frame) :
  NoDup (job_id <$> df) → (∀ r, r ∈ df → job_id r ∉ seen) →
  drop_duplicates_from seen df = df.
Proof.
  revert seen. induction df as [|r df IH]; intros seen; [done|].
  rewrite fmap_cons, NoDup_cons. intros [Hr Hdf] Hseen.
  cbn [drop_duplicates_from]. rewrite decide_False by (apply Hseen; left).
  f_equal. apply IH; [done|]. intros r' Hr'.
  rewrite elem_of_union, elem_of_singleton. intros [E|Hin].
  - apply Hr. rewrite <- E. by apply list_elem_of_fmap_2.
  - apply (Hseen r'); [by right|done].
Qed.

Section Distinct.

Variable sort_values : frame → frame.
Hypothesis sort_values_perm : ∀ df, sort_values df ≡ₚ df.

(** X23.  When the raw identifiers are pairwise distinct and none is
    missing or an empty value, the final deduplication drops nothing:
    the published table is the sorted survivors of cleaning. *)
Theorem distinct_identifiers_lose_no_row (raw survivors : frame) :
  NoDup (job_id <$> raw) → identified raw →
  run_full_cleaning raw = Some survivors →
  clean_and_load sort_values raw = Some (sort_values survivors) ∧
  sort_values survivors ≡ₚ survivors.
Proof.
  intros Hnd Hid Hrun. split; [|apply sort_values_perm].
  unfold clean_and_load. rewrite Hrun. simpl. f_equal.
  apply drop_duplicates_from_distinct; [|intros; apply not_elem_of_empty].
  rewrite (sort_values_perm survivors).
  eapply sublist_NoDup; [|apply (job_ids_run_full_cleaning _ _ Hrun)].
  rewrite (list_fmap_ext (clean_empty_cell ∘ job_id) job_id raw); [done|].
  intros i r Hr. simpl.
  destruct (Hid r) as (s & -> & E); [apply list_elem_of_lookup; eauto|].
  simpl. by rewrite E.
Qed.

End Distinct.

Lemma distinct_identifiers_lose_no_row_witness :
  clean_and_load sort_values_merge sample_distinct
  = Some (sort_values_merge (default [] (run_full_cleaning sample_distinct))).
Proof.
  refine (proj1 (distinct_identifiers_lose_no_row sort_values_merge
                   sort_values_merge_perm sample_distinct _ _ _ eq_refl)).
  - by apply (bool_decide_unpack _).
  - intros r Hr. unfold sample_distinct in Hr.
    repeat (apply elem_of_cons in Hr as [->|Hr]; [by eexists|]).
    inversion Hr.
Defined.

End CleaningExtra.
